(** * Minesweeper knowledge base: a shallow embedding of [minesweeper.py]

    The Python classes [Minesweeper], [Sentence] and [MinesweeperAI] are
    rendered as three modules of the same names.  Cells are pairs of
    unbounded Python integers ([Z * Z]); Python sets of cells are [gset]s;
    the knowledge base is a [list] of sentences, because the source relies
    on its order (index-based iteration, [list.remove], [append]/[extend]).
    Every [Sentence] owns a private copy of its cell set ([set(cells)] in
    [__init__], fresh sets from [union] and [-]), so in-place mutation of one
    sentence is modelled by replacing that list element. *)

From Stdlib Require Import ZArith Lia.
From stdpp Require Import base decidable option list list_numbers sets
  fin_sets gmap.

Abbreviation cell := (Z * Z)%type (only parsing).

(** Python's [range(lo, hi)]. *)
Definition range (lo hi : Z) : list Z := seqZ lo (hi - lo).

(** The cells visited by the two nested loops
    [for i in range(cell[0] - 1, cell[0] + 2):
       for j in range(cell[1] - 1, cell[1] + 2)], in visiting order. *)
Definition block (c : cell) : list cell :=
  i ← range (c.1 - 1) (c.1 + 2);
  j ← range (c.2 - 1) (c.2 + 2);
  [(i, j)].

(** [0 <= i < height and 0 <= j < width] *)
Definition in_bounds (height width : Z) (c : cell) : Prop :=
  (0 ≤ c.1 < height ∧ 0 ≤ c.2 < width)%Z.

Global Instance in_bounds_dec h w c : Decision (in_bounds h w c).
Proof. unfold in_bounds. apply _. Defined.

(** ** class Minesweeper *)
Module Minesweeper.

Record t := Build {
  height : Z;
  width : Z;
  board : list (list bool)
}.

(** [self.board[i][j]], read only under the bounds guard of
    [nearby_mines], hence for non-negative indices. *)
Definition board_at (g : t) (i j : Z) : bool :=
  match board g !! Z.to_nat i with
  | Some row => default false (row !! Z.to_nat j)
  | None => false
  end.

(** One iteration of the loop body of [nearby_mines]. *)
Definition nearby_step (g : t) (c : cell) (count : Z) (ij : cell) : Z :=
  if decide (ij = c) then count
  else if decide (in_bounds (height g) (width g) ij)
       then (if board_at g ij.1 ij.2 then count + 1 else count)%Z
       else count.

Definition nearby_mines (g : t) (c : cell) : Z :=
  foldl (nearby_step g c) 0%Z (block c).

End Minesweeper.

(** ** class Sentence *)
Module Sentence.

Record t := Build {
  cells : gset cell;
  count : Z
}.

(** [__eq__] is structural, which is Leibniz equality on the record. *)
Global Instance eq_dec : EqDecision t.
Proof. solve_decision. Defined.

Definition known_mines (s : t) : gset cell :=
  if decide (Z.of_nat (size (cells s)) = count s ∧ count s ≠ 0%Z)
  then cells s else ∅.

Definition known_safes (s : t) : gset cell :=
  if decide (count s = 0%Z) then cells s else ∅.

Definition mark_mine (c : cell) (s : t) : t :=
  if decide (c ∈ cells s)
  then Build (cells s ∖ {[c]}) (count s - 1)
  else s.

Definition mark_safe (c : cell) (s : t) : t :=
  if decide (c ∈ cells s)
  then Build (cells s ∖ {[c]}) (count s)
  else s.

End Sentence.

(** ** class MinesweeperAI *)
Module MinesweeperAI.

Record t := Build {
  height : Z;
  width : Z;
  moves_made : gset cell;
  mines : gset cell;
  safes : gset cell;
  knowledge : list Sentence.t
}.

Global Instance eq_dec : EqDecision t.
Proof. solve_decision. Defined.

(** [__init__] *)
Definition init (height width : Z) : t :=
  Build height width ∅ ∅ ∅ [].

Definition mark_mine (st : t) (c : cell) : t :=
  Build (height st) (width st) (moves_made st)
        (mines st ∪ {[c]}) (safes st)
        (Sentence.mark_mine c <$> knowledge st).

Definition mark_safe (st : t) (c : cell) : t :=
  Build (height st) (width st) (moves_made st)
        (mines st) (safes st ∪ {[c]})
        (Sentence.mark_safe c <$> knowledge st).

(** [for x in xs: self.mark_...(x)] over a Python set.  The iteration
    order of a set is unspecified; [elements] fixes one, and
    [mark_mines_spec]/[mark_safes_spec] below show the result does not
    depend on it. *)
Definition mark_mines (st : t) (cs : gset cell) : t :=
  foldl mark_mine st (elements cs).

Definition mark_safes (st : t) (cs : gset cell) : t :=
  foldl mark_safe st (elements cs).

(** Body of the neighbour loop of [add_knowledge]; the accumulator is the
    pair of the local variables [count] and [cells_set]. *)
Definition neighbor_step (st : t) (acc : Z * gset cell) (new_cell : cell)
  : Z * gset cell :=
  let count :=
    if decide (new_cell ∈ mines st) then (acc.1 - 1)%Z else acc.1 in
  let cells_set :=
    if decide (in_bounds (height st) (width st) new_cell
               ∧ (new_cell ∉ safes st) ∧ (new_cell ∉ mines st))
    then (acc.2 ∪ {[new_cell]}) else acc.2 in
  (count, cells_set).

Definition new_sentence (st : t) (c : cell) (count : Z) : Sentence.t :=
  let r := foldl (neighbor_step st) (count, ∅) (block c) in
  Sentence.Build r.2 r.1.

(** [list.remove(x)]: drops the first element equal ([==]) to [x].
    Python raises [ValueError] when there is none; the only caller passes
    an element of the list. *)
Fixpoint remove (x : Sentence.t) (l : list Sentence.t) : list Sentence.t :=
  match l with
  | [] => []
  | y :: l' => if decide (y = x) then l' else y :: remove x l'
  end.

(** [for sentence in self.knowledge:
       if len(sentence.cells) == 0: self.knowledge.remove(sentence)]
    The list iterator keeps an index [i] into the list that is being
    shortened under it, and stops when [i] reaches the current length.
    [n] bounds the number of iterations. *)
Fixpoint purge_from (n i : nat) (l : list Sentence.t) : list Sentence.t :=
  match n with
  | O => l
  | S n' =>
      match l !! i with
      | None => l
      | Some s =>
          if decide (size (Sentence.cells s) = 0%nat)
          then purge_from n' (S i) (remove s l)
          else purge_from n' (S i) l
      end
  end.

Definition purge (l : list Sentence.t) : list Sentence.t :=
  purge_from (length l) 0 l.

(** [Sentence(sentence2.cells - sentence1.cells,
             sentence2.count - sentence1.count)] *)
Definition inferred (s1 s2 : Sentence.t) : Sentence.t :=
  Sentence.Build (Sentence.cells s2 ∖ Sentence.cells s1)
                 (Sentence.count s2 - Sentence.count s1).

(** The guard of the subset-resolution step. *)
Definition resolvable (s1 s2 : Sentence.t) : Prop :=
  Sentence.cells s1 ⊆ Sentence.cells s2
  ∧ (Sentence.count s1 ≤ Sentence.count s2)%Z
  ∧ s1 ≠ s2.

Global Instance resolvable_dec s1 s2 : Decision (resolvable s1 s2).
Proof. unfold resolvable. apply _. Defined.

(** The list [new_knowledge] built by the double loop. *)
Definition resolve (K : list Sentence.t) : list Sentence.t :=
  s1 ← K;
  s2 ← K;
  if decide (resolvable s1 s2)
  then (if decide (inferred s1 s2 ∈ K) then [] else [inferred s1 s2])
  else [].

Definition collect_mines (K : list Sentence.t) : gset cell :=
  foldl (λ acc s, acc ∪ Sentence.known_mines s) ∅ K.

Definition collect_safes (K : list Sentence.t) : gset cell :=
  foldl (λ acc s, acc ∪ Sentence.known_safes s) ∅ K.

Definition set_knowledge (st : t) (K : list Sentence.t) : t :=
  Build (height st) (width st) (moves_made st) (mines st) (safes st) K.

(** The state in which the subset-resolution double loop of one pass runs:
    inferred cells marked, empty sentences purged. *)
Definition before_resolve (st : t) : t :=
  let mines_ := collect_mines (knowledge st) in
  let safes_ := collect_safes (knowledge st) in
  let st1 := if decide (mines_ = ∅) then st else mark_mines st mines_ in
  let st2 := if decide (safes_ = ∅) then st1 else mark_safes st1 safes_ in
  set_knowledge st2 (purge (knowledge st2)).

(** One iteration of the [while True] loop: the new state and [new_info]. *)
Definition pass (st : t) : t * bool :=
  let mines_ := collect_mines (knowledge st) in
  let safes_ := collect_safes (knowledge st) in
  let st3 := before_resolve st in
  let new_knowledge := resolve (knowledge st3) in
  (set_knowledge st3 (knowledge st3 ++ new_knowledge),
   negb (bool_decide (mines_ = ∅))
   || negb (bool_decide (safes_ = ∅))
   || negb (bool_decide (new_knowledge = []))).

(** The [while True] loop, at most [fuel] passes; [None] means the fuel
    ran out before a pass ended with [new_info] false. *)
Fixpoint fixpoint_loop (fuel : nat) (st : t) : option t :=
  match fuel with
  | O => None
  | S n =>
      let '(st', new_info) := pass st in
      if new_info then fixpoint_loop n st' else Some st'
  end.

(** [self.moves_made.add(cell)] *)
Definition record_move (st : t) (c : cell) : t :=
  Build (height st) (width st) (moves_made st ∪ {[c]})
        (mines st) (safes st) (knowledge st).

(** The state on entry to the [while True] loop. *)
Definition observe (st : t) (c : cell) (count : Z) : t :=
  let st2 := mark_safe (record_move st c) c in
  set_knowledge st2 (knowledge st2 ++ [new_sentence st2 c count]).

Definition add_knowledge (fuel : nat) (st : t) (c : cell) (count : Z)
  : option t :=
  fixpoint_loop fuel (observe st c count).

(** A sequence of [add_knowledge] calls, each with its own fuel budget. *)
Fixpoint run (fuel : nat) (st : t) (obs : list (cell * Z)) : option t :=
  match obs with
  | [] => Some st
  | (c, n) :: obs' =>
      match add_knowledge fuel st c n with
      | Some st' => run fuel st' obs'
      | None => None
      end
  end.

End MinesweeperAI.


(** ** Vocabulary of the statements *)

(** All cells of an [h] by [w] board, row by row. *)
Definition all_cells (h w : Z) : list cell :=
  i ← range 0 h;
  j ← range 0 w;
  [(i, j)].

Definition board_cells (h w : Z) : gset cell := list_to_set (all_cells h w).

(** The cells of the board that hold a mine ([Minesweeper.mines] in the
    source, which [__init__] keeps equal to the [True] entries of
    [board]). *)
Definition mine_set (g : Minesweeper.t) : gset cell :=
  list_to_set
    (filter (λ c : cell, Minesweeper.board_at g c.1 c.2 = true)
            (all_cells (Minesweeper.height g) (Minesweeper.width g))).

(** An observation [(cell, count)] that the board [g] really gives: the
    cell is on the board, is not a mine, and [count] is what
    [nearby_mines] reports for it. *)
Definition observed (g : Minesweeper.t) (o : cell * Z) : Prop :=
  in_bounds (Minesweeper.height g) (Minesweeper.width g) o.1
  ∧ (o.1 ∉ mine_set g)
  ∧ o.2 = Minesweeper.nearby_mines g o.1.

Global Instance observed_dec g o : Decision (observed g o).
Proof. unfold observed. apply _. Defined.

(** States of the AI reachable from a fresh instance through its three
    mutating methods, with arbitrary arguments. *)
Inductive reachable (h w : Z) : MinesweeperAI.t → Prop :=
  | reachable_init :
      reachable h w (MinesweeperAI.init h w)
  | reachable_mark_mine st c :
      reachable h w st → reachable h w (MinesweeperAI.mark_mine st c)
  | reachable_mark_safe st c :
      reachable h w st → reachable h w (MinesweeperAI.mark_safe st c)
  | reachable_add_knowledge st c n fuel st' :
      reachable h w st →
      MinesweeperAI.add_knowledge fuel st c n = Some st' →
      reachable h w st'.

(** States reachable while playing on the board [g]: every observation is
    one the board gives, and cells are only declared mines (safe) when they
    are (are not) mines of [g]. *)
Inductive played (g : Minesweeper.t) : MinesweeperAI.t → Prop :=
  | played_init :
      played g (MinesweeperAI.init (Minesweeper.height g) (Minesweeper.width g))
  | played_mark_mine st c :
      played g st → c ∈ mine_set g →
      played g (MinesweeperAI.mark_mine st c)
  | played_mark_safe st c :
      played g st → c ∉ mine_set g →
      played g (MinesweeperAI.mark_safe st c)
  | played_add_knowledge st c n fuel st' :
      played g st → observed g (c, n) →
      MinesweeperAI.add_knowledge fuel st c n = Some st' →
      played g st'.

(** A state invariant built from a condition [Pm] on declared mines, a
    condition [Ps] on declared safe cells and a condition [Ok] that every
    stored sentence meets relative to the two known sets. *)
Definition holds (Pm Ps : cell → Prop)
    (Ok : gset cell → gset cell → Sentence.t → Prop)
    (st : MinesweeperAI.t) : Prop :=
  (∀ c, c ∈ MinesweeperAI.mines st → Pm c)
  ∧ (∀ c, c ∈ MinesweeperAI.safes st → Ps c)
  ∧ Forall (Ok (MinesweeperAI.mines st) (MinesweeperAI.safes st))
           (MinesweeperAI.knowledge st).

(** No classified cell occurs in the sentence. *)
Definition separated (M S : gset cell) (s : Sentence.t) : Prop :=
  Sentence.cells s ## M ∧ Sentence.cells s ## S.

(** All cells of the sentence are on the board. *)
Definition bounded (h w : Z) (M S : gset cell) (s : Sentence.t) : Prop :=
  ∀ c, c ∈ Sentence.cells s → in_bounds h w c.

(** The sentence is true of the board [g], is about cells of the board and
    mentions no classified cell. *)
Definition sound (g : Minesweeper.t) (M S : gset cell) (s : Sentence.t)
  : Prop :=
  Sentence.cells s ⊆ board_cells (Minesweeper.height g) (Minesweeper.width g)
  ∧ separated M S s
  ∧ Sentence.count s = Z.of_nat (size (Sentence.cells s ∩ mine_set g)).

(** The invariant of play on [g]. *)
Definition inv (g : Minesweeper.t) (st : MinesweeperAI.t) : Prop :=
  MinesweeperAI.height st = Minesweeper.height g
  ∧ MinesweeperAI.width st = Minesweeper.width g
  ∧ holds (λ c, c ∈ mine_set g) (λ c, c ∉ mine_set g) (sound g) st.

(** All subsets of the set of elements of a list. *)
Fixpoint subsets (l : list cell) : list (gset cell) :=
  match l with
  | [] => [∅]
  | x :: l' => subsets l' ++ ((λ X, {[x]} ∪ X) <$> subsets l')
  end.

(** Termination measure, first component: board cells not yet classified. *)
Definition unknown (h w : Z) (st : MinesweeperAI.t) : nat :=
  size (board_cells h w ∖ (MinesweeperAI.mines st ∪ MinesweeperAI.safes st)).

(** Termination measure, second component: non-empty sets of board cells
    that are not the cell set of any stored sentence. *)
Definition fresh_set (K : list Sentence.t) (X : gset cell) : Prop :=
  X ≠ ∅ ∧ X ∉ (Sentence.cells <$> K).

Global Instance fresh_set_dec K X : Decision (fresh_set K X).
Proof. unfold fresh_set. apply _. Defined.

Definition unseen (h w : Z) (st : MinesweeperAI.t) : nat :=
  length (filter (fresh_set (MinesweeperAI.knowledge st))
                 (subsets (all_cells h w))).

(** ** Example games *)

(** A 2 by 3 board whose only mine is at [(1, 1)], and the observations a
    player gets by revealing the top row from right to left and then its
    middle. *)
Definition board_2x3 : Minesweeper.t :=
  Minesweeper.Build 2 3 [[false; false; false]; [false; true; false]].

Definition game_2x3 : list (cell * Z) :=
  [((0, 2), 1); ((0, 0), 1); ((0, 1), 1)]%Z.

(** A 2 by 2 board whose only mine is at [(0, 1)], and the observations of
    its left column. *)
Definition board_2x2 : Minesweeper.t :=
  Minesweeper.Build 2 2 [[false; true]; [false; false]].

Definition game_2x2 : list (cell * Z) :=
  [((0, 0), 1); ((1, 0), 1)]%Z.

Import MinesweeperAI.

Arguments pass : simpl never.
Arguments before_resolve : simpl never.
Arguments observe : simpl never.
Arguments block : simpl never.
Arguments range : simpl never.

(** ** The remaining methods *)

(** Python's [l[i]] on a list: indices [0 .. len-1] read from the front,
    [-len .. -1] from the back, anything else raises [IndexError]
    ([None]). *)
Definition py_index {A} (l : list A) (i : Z) : option A :=
  if decide (0 ≤ i < Z.of_nat (length l))%Z then l !! Z.to_nat i
  else if decide (- Z.of_nat (length l) ≤ i < 0)%Z
       then l !! Z.to_nat (Z.of_nat (length l) + i)
       else None.

(** [Minesweeper.is_mine]: [i, j = cell; return self.board[i][j]]. *)
Definition is_mine (g : Minesweeper.t) (c : cell) : option bool :=
  row ← py_index (Minesweeper.board g) c.1;
  py_index row c.2.

(** The board [Minesweeper.__init__] starts from: [height] rows of [width]
    times [False], built by the two nested [range] loops. *)
Definition empty_board (height width : Z) : list (list bool) :=
  (λ _ : Z, (λ _ : Z, false) <$> range 0 width) <$> range 0 height.

(** [self.board[i][j] = True], for the indices [randrange] returns. *)
Definition set_mine (board : list (list bool)) (i j : Z) : list (list bool) :=
  alter (λ row, <[Z.to_nat j := true]> row) (Z.to_nat i) board.

(** How [Minesweeper.__init__] can end when the values of the random
    generator are given as a list of draws. *)
Inductive outcome (A : Type) : Type :=
  | Returned (a : A)
  | Raised
  | Starved.
Arguments Returned {A} a.
Arguments Raised {A}.
Arguments Starved {A}.

(** The loop [while len(self.mines) != mines] of [Minesweeper.__init__].
    [draws] lists the pairs [(randrange(height), randrange(width))] the
    generator hands out, in order.  [random.randrange(n)] raises
    [ValueError] when [n <= 0], which is [Raised]; [Starved] means the loop
    is still running when the draws of the list are used up. *)
Fixpoint place_mines (h w target : Z) (draws : list cell)
    (placed : gset cell) (board : list (list bool))
  : outcome (gset cell * list (list bool)) :=
  if decide (Z.of_nat (size placed) = target) then Returned (placed, board)
  else if decide (h ≤ 0 ∨ w ≤ 0)%Z then Raised
  else
    match draws with
    | [] => Starved
    | ij :: draws' =>
        if Minesweeper.board_at (Minesweeper.Build h w board) ij.1 ij.2
        then place_mines h w target draws' placed board
        else place_mines h w target draws'
               (placed ∪ {[ij]}) (set_mine board ij.1 ij.2)
    end.

(** [Minesweeper.__init__]: the board and the set [self.mines]. *)
Definition new_game (height width target : Z) (draws : list cell)
  : outcome (Minesweeper.t * gset cell) :=
  match place_mines height width target draws ∅ (empty_board height width) with
  | Returned (placed, board) =>
      Returned (Minesweeper.Build height width board, placed)
  | Raised => Raised
  | Starved => Starved
  end.

(** The board has the shape [__init__] gives it. *)
Definition well_formed (g : Minesweeper.t) : Prop :=
  length (Minesweeper.board g) = Z.to_nat (Minesweeper.height g)
  ∧ Forall (λ row : list bool, length row = Z.to_nat (Minesweeper.width g))
           (Minesweeper.board g).

(** The loop of [make_safe_move] over the cells of [self.safes] in the
    order [l] in which the set is walked. *)
Fixpoint first_unmade (made : gset cell) (l : list cell) : option cell :=
  match l with
  | [] => None
  | c :: l' => if decide (c ∉ made) then Some c else first_unmade made l'
  end.

(** [make_safe_move], given the order [walk] in which Python iterates
    over the set [self.safes] (some arrangement of its elements). *)
Definition make_safe_move (walk : list cell) (st : MinesweeperAI.t)
  : option cell :=
  first_unmade (moves_made st) walk.

(** The list [available] built by the nested loops of
    [make_random_move]. *)
Definition available (st : MinesweeperAI.t) : list cell :=
  i ← range 0 (height st);
  j ← range 0 (width st);
  if decide (((i, j) ∉ moves_made st) ∧ ((i, j) ∉ mines st))
  then [(i, j)] else [].

(** [make_random_move]; [random.choice(available)] returns the element at
    an index below [len(available)] taken from the generator, here
    [r mod len(available)] for a generator output [r]. *)
Definition make_random_move (r : nat) (st : MinesweeperAI.t) : option cell :=
  if decide (length (available st) ≠ 0)
  then available st !! (r `mod` length (available st))
  else None.

(** The eight cells around a cell. *)
Definition neighbors (c : cell) : gset cell :=
  list_to_set (block c) ∖ {[c]}.

(** The sentence says the truth about a set [G] of mines. *)
Definition true_of (G : gset cell) (s : Sentence.t) : Prop :=
  Sentence.count s = Z.of_nat (size (Sentence.cells s ∩ G)).

Global Instance true_of_dec G s : Decision (true_of G s).
Proof. unfold true_of. apply _. Defined.

(** * Properties *)

(** ** Ranges and blocks *)

Lemma elem_of_range lo hi x : x ∈ range lo hi ↔ (lo ≤ x < hi)%Z.
Proof. unfold range. rewrite elem_of_seqZ. lia. Qed.

Lemma NoDup_range lo hi : NoDup (range lo hi).
Proof. apply NoDup_seqZ. Qed.

Lemma range3 x : range (x - 1) (x + 2) = [x - 1; x; x + 1]%Z.
Proof.
  unfold range. replace (x + 2 - (x - 1))%Z with 3%Z by lia.
  cbv [seqZ]. simpl.
  assert (Hl : ∀ a b c a' b' c' : Z,
             a = a' → b = b' → c = c' → [a; b; c] = [a'; b'; c'])
    by (intros; subst; reflexivity).
  apply Hl; lia.
Qed.

Lemma block_unfold r c :
  block (r, c) =
  [(r - 1, c - 1); (r - 1, c); (r - 1, c + 1);
   (r, c - 1); (r, c); (r, c + 1);
   (r + 1, c - 1); (r + 1, c); (r + 1, c + 1)]%Z.
Proof. unfold block. simpl. rewrite !range3. reflexivity. Qed.

Lemma NoDup_block c : NoDup (block c).
Proof.
  destruct c as [r c]. rewrite block_unfold.
  repeat (apply NoDup_cons; split;
          [rewrite ?elem_of_cons, elem_of_nil;
           intros H; repeat destruct H as [H|H]; try done;
           injection H; intros; lia|]).
  apply NoDup_nil_2.
Qed.

Lemma elem_of_all_cells h w c : c ∈ all_cells h w ↔ in_bounds h w c.
Proof.
  unfold all_cells, in_bounds. destruct c as [i j]. simpl.
  rewrite list_elem_of_bind. split.
  - intros (i' & Hj & Hi). apply list_elem_of_bind in Hj as (j' & Hc & Hj).
    apply list_elem_of_singleton in Hc. injection Hc as -> ->.
    apply elem_of_range in Hi, Hj. lia.
  - intros [Hi Hj]. exists i. split; [|apply elem_of_range; lia].
    apply list_elem_of_bind. exists j.
    split; [apply list_elem_of_singleton; done|apply elem_of_range; lia].
Qed.

Lemma elem_of_board_cells h w c : c ∈ board_cells h w ↔ in_bounds h w c.
Proof. unfold board_cells. rewrite elem_of_list_to_set. apply elem_of_all_cells. Qed.

Lemma elem_of_mine_set g c :
  c ∈ mine_set g ↔
  in_bounds (Minesweeper.height g) (Minesweeper.width g) c
  ∧ Minesweeper.board_at g c.1 c.2 = true.
Proof.
  unfold mine_set. rewrite elem_of_list_to_set, list_elem_of_filter.
  rewrite elem_of_all_cells. tauto.
Qed.

Lemma mine_set_board g :
  mine_set g ⊆ board_cells (Minesweeper.height g) (Minesweeper.width g).
Proof.
  intros c Hc. apply elem_of_board_cells. by apply elem_of_mine_set in Hc as [? _].
Qed.

(** ** [list.remove] and the purge loop *)

Lemma elem_of_remove x y l : y ∈ remove x l → y ∈ l.
Proof.
  induction l as [|z l IH]; simpl; [done|].
  case_decide; rewrite !elem_of_cons; [tauto|].
  intros [->|Hy]; auto.
Qed.

Lemma elem_of_remove_ne x y l : y ∈ l → y ≠ x → y ∈ remove x l.
Proof.
  intros Hy Hne. induction l as [|z l IH]; simpl; [done|].
  apply elem_of_cons in Hy as [->|Hy].
  - case_decide; [done|]. apply elem_of_cons. by left.
  - case_decide; [done|]. apply elem_of_cons. right. by apply IH.
Qed.

Lemma length_remove x l : length (remove x l) ≤ length l.
Proof.
  induction l as [|z l IH]; simpl; [done|].
  case_decide; simpl; lia.
Qed.

(** The iteration bound [length l] used by [purge] is never the reason the
    loop stops: one more unit of fuel changes nothing. *)
Lemma purge_from_fuel n i l :
  length l ≤ n + i → purge_from (S n) i l = purge_from n i l.
Proof.
  revert i l. induction n as [|n IH]; intros i l Hlen.
  - simpl. rewrite lookup_ge_None_2 by lia. done.
  - change (purge_from (S (S n)) i l) with
      (match l !! i with
       | None => l
       | Some s =>
           if decide (size (Sentence.cells s) = 0)
           then purge_from (S n) (S i) (remove s l)
           else purge_from (S n) (S i) l
       end).
    simpl. destruct (l !! i) as [s|]; [|done].
    case_decide.
    + apply IH. pose proof (length_remove s l). lia.
    + apply IH. lia.
Qed.

Lemma elem_of_purge_from n i l s : s ∈ purge_from n i l → s ∈ l.
Proof.
  revert i l. induction n as [|n IH]; intros i l; simpl; [done|].
  destruct (l !! i) as [s0|]; [|done].
  case_decide; intros Hs; apply IH in Hs; eauto using elem_of_remove.
Qed.

Lemma purge_from_keeps n i l s :
  s ∈ l → Sentence.cells s ≠ ∅ → s ∈ purge_from n i l.
Proof.
  revert i l. induction n as [|n IH]; intros i l Hs Hne; simpl; [done|].
  destruct (l !! i) as [s0|]; [|done].
  case_decide as H0; apply IH; try done.
  apply elem_of_remove_ne; [done|]. intros ->.
  apply size_empty_inv in H0. apply leibniz_equiv in H0. done.
Qed.

Lemma elem_of_purge l s : s ∈ purge l → s ∈ l.
Proof. apply elem_of_purge_from. Qed.

Lemma purge_keeps l s : s ∈ l → Sentence.cells s ≠ ∅ → s ∈ purge l.
Proof. apply purge_from_keeps. Qed.

(** ** Marking: the order in which a set is traversed is irrelevant *)

Lemma Sentence_mark_mine_comm a b s :
  Sentence.mark_mine a (Sentence.mark_mine b s)
  = Sentence.mark_mine b (Sentence.mark_mine a s).
Proof.
  destruct (decide (a = b)) as [->|Hab]; [done|].
  destruct s as [X n]. unfold Sentence.mark_mine. simpl.
  destruct (decide (b ∈ X)) as [Hb|Hb], (decide (a ∈ X)) as [Ha|Ha]; simpl.
  - rewrite (decide_True (P := a ∈ X ∖ {[b]})) by set_solver.
    rewrite (decide_True (P := b ∈ X ∖ {[a]})) by set_solver.
    f_equal; set_solver.
  - rewrite (decide_False (P := a ∈ X ∖ {[b]})) by set_solver.
    rewrite (decide_True (P := b ∈ X)) by done. done.
  - rewrite (decide_True (P := a ∈ X)) by done.
    rewrite (decide_False (P := b ∈ X ∖ {[a]})) by set_solver. done.
  - rewrite (decide_False (P := a ∈ X)) by done.
    rewrite (decide_False (P := b ∈ X)) by done. done.
Qed.

Lemma Sentence_mark_safe_comm a b s :
  Sentence.mark_safe a (Sentence.mark_safe b s)
  = Sentence.mark_safe b (Sentence.mark_safe a s).
Proof.
  destruct (decide (a = b)) as [->|Hab]; [done|].
  destruct s as [X n]. unfold Sentence.mark_safe. simpl.
  destruct (decide (b ∈ X)) as [Hb|Hb], (decide (a ∈ X)) as [Ha|Ha]; simpl.
  - rewrite (decide_True (P := a ∈ X ∖ {[b]})) by set_solver.
    rewrite (decide_True (P := b ∈ X ∖ {[a]})) by set_solver.
    f_equal; set_solver.
  - rewrite (decide_False (P := a ∈ X ∖ {[b]})) by set_solver.
    rewrite (decide_True (P := b ∈ X)) by done. done.
  - rewrite (decide_True (P := a ∈ X)) by done.
    rewrite (decide_False (P := b ∈ X ∖ {[a]})) by set_solver. done.
  - rewrite (decide_False (P := a ∈ X)) by done.
    rewrite (decide_False (P := b ∈ X)) by done. done.
Qed.

Lemma mark_mine_comm st a b :
  mark_mine (mark_mine st a) b = mark_mine (mark_mine st b) a.
Proof.
  unfold mark_mine. simpl. f_equal; [set_solver|].
  rewrite <- !list_fmap_compose. apply list_fmap_ext.
  intros _ s _. simpl. apply Sentence_mark_mine_comm.
Qed.

Lemma mark_safe_comm st a b :
  mark_safe (mark_safe st a) b = mark_safe (mark_safe st b) a.
Proof.
  unfold mark_safe. simpl. f_equal; [set_solver|].
  rewrite <- !list_fmap_compose. apply list_fmap_ext.
  intros _ s _. simpl. apply Sentence_mark_safe_comm.
Qed.

Lemma foldl_comm_perm {A B} (f : A → B → A) (l1 l2 : list B) :
  (∀ a x y, f (f a x) y = f (f a y) x) →
  l1 ≡ₚ l2 → ∀ a, foldl f a l1 = foldl f a l2.
Proof.
  intros Hf. induction 1 as [|x l1 l2 _ IH|x y l|l1 l2 l3 _ IH1 _ IH2];
    intros a; simpl.
  - done.
  - apply IH.
  - by rewrite Hf.
  - by rewrite IH1.
Qed.

(** Whatever order Python walks the set in, marking gives the state that
    [mark_mines] computes. *)
Lemma mark_mines_spec st cs l :
  l ≡ₚ elements cs → foldl mark_mine st l = mark_mines st cs.
Proof. intros Hl. apply foldl_comm_perm; [apply mark_mine_comm|done]. Qed.

Lemma mark_safes_spec st cs l :
  l ≡ₚ elements cs → foldl mark_safe st l = mark_safes st cs.
Proof. intros Hl. apply foldl_comm_perm; [apply mark_safe_comm|done]. Qed.

(** ** What the loops compute *)

Lemma fold_mark_mine_fields l st :
  height (foldl mark_mine st l) = height st
  ∧ width (foldl mark_mine st l) = width st
  ∧ moves_made (foldl mark_mine st l) = moves_made st
  ∧ mines (foldl mark_mine st l) = mines st ∪ list_to_set l
  ∧ safes (foldl mark_mine st l) = safes st.
Proof.
  revert st. induction l as [|c l IH]; intros st; simpl.
  - repeat split; set_solver.
  - destruct (IH (mark_mine st c)) as (-> & -> & -> & -> & ->). simpl.
    repeat split; set_solver.
Qed.

Lemma fold_mark_safe_fields l st :
  height (foldl mark_safe st l) = height st
  ∧ width (foldl mark_safe st l) = width st
  ∧ moves_made (foldl mark_safe st l) = moves_made st
  ∧ mines (foldl mark_safe st l) = mines st
  ∧ safes (foldl mark_safe st l) = safes st ∪ list_to_set l.
Proof.
  revert st. induction l as [|c l IH]; intros st; simpl.
  - repeat split; set_solver.
  - destruct (IH (mark_safe st c)) as (-> & -> & -> & -> & ->). simpl.
    repeat split; set_solver.
Qed.

Lemma elem_of_collect_mines K c :
  c ∈ collect_mines K ↔ ∃ s, s ∈ K ∧ c ∈ Sentence.known_mines s.
Proof.
  unfold collect_mines.
  assert (Hgen : ∀ acc, c ∈ foldl (λ acc s, acc ∪ Sentence.known_mines s) acc K
                 ↔ c ∈ acc ∨ ∃ s, s ∈ K ∧ c ∈ Sentence.known_mines s).
  { induction K as [|s K IH]; intros acc; simpl.
    - split; [auto|]. intros [?|(s & Hs & _)]; [done|]. by apply elem_of_nil in Hs.
    - rewrite IH, elem_of_union. split.
      + intros [[?|?]|(s' & ? & ?)]; [auto| |];
          right; eexists; (split; [apply elem_of_cons|]); eauto.
      + intros [?|(s' & Hs' & ?)]; [auto|].
        apply elem_of_cons in Hs' as [->|?]; eauto. }
  rewrite Hgen. split; [|auto]. intros [H|H]; [set_solver|done].
Qed.

Lemma elem_of_collect_safes K c :
  c ∈ collect_safes K ↔ ∃ s, s ∈ K ∧ c ∈ Sentence.known_safes s.
Proof.
  unfold collect_safes.
  assert (Hgen : ∀ acc, c ∈ foldl (λ acc s, acc ∪ Sentence.known_safes s) acc K
                 ↔ c ∈ acc ∨ ∃ s, s ∈ K ∧ c ∈ Sentence.known_safes s).
  { induction K as [|s K IH]; intros acc; simpl.
    - split; [auto|]. intros [?|(s & Hs & _)]; [done|]. by apply elem_of_nil in Hs.
    - rewrite IH, elem_of_union. split.
      + intros [[?|?]|(s' & ? & ?)]; [auto| |];
          right; eexists; (split; [apply elem_of_cons|]); eauto.
      + intros [?|(s' & Hs' & ?)]; [auto|].
        apply elem_of_cons in Hs' as [->|?]; eauto. }
  rewrite Hgen. split; [|auto]. intros [H|H]; [set_solver|done].
Qed.

Lemma elem_of_known_mines s c :
  c ∈ Sentence.known_mines s ↔
  c ∈ Sentence.cells s
  ∧ Z.of_nat (size (Sentence.cells s)) = Sentence.count s
  ∧ Sentence.count s ≠ 0%Z.
Proof. unfold Sentence.known_mines. case_decide; set_solver. Qed.

Lemma elem_of_known_safes s c :
  c ∈ Sentence.known_safes s ↔
  c ∈ Sentence.cells s ∧ Sentence.count s = 0%Z.
Proof. unfold Sentence.known_safes. case_decide; set_solver. Qed.

(** The neighbour loop: every visited cell that is a known mine lowers
    [count] by one, and the cells kept are the visited cells on the board
    that are neither known safe nor known mines. *)
Lemma neighbor_fold st l n X :
  foldl (neighbor_step st) (n, X) l =
  ((n - Z.of_nat (length (filter (λ c, c ∈ mines st) l)))%Z,
   X ∪ list_to_set
         (filter (λ c, in_bounds (height st) (width st) c
                       ∧ (c ∉ safes st) ∧ (c ∉ mines st)) l)).
Proof.
  revert n X. induction l as [|c l IH]; intros n X; simpl.
  - f_equal; [lia|set_solver].
  - unfold neighbor_step at 2. simpl. rewrite IH. rewrite !filter_cons.
    repeat case_decide; simpl; f_equal; try lia; set_solver.
Qed.

Lemma new_sentence_cells st c n x :
  x ∈ Sentence.cells (new_sentence st c n) ↔
  x ∈ block c ∧ in_bounds (height st) (width st) x
  ∧ x ∉ safes st ∧ x ∉ mines st.
Proof.
  unfold new_sentence. rewrite neighbor_fold. simpl.
  rewrite elem_of_union, elem_of_list_to_set, list_elem_of_filter.
  set_solver.
Qed.

Lemma new_sentence_count st c n :
  Sentence.count (new_sentence st c n) =
  (n - Z.of_nat (length (filter (λ x, x ∈ mines st) (block c))))%Z.
Proof. unfold new_sentence. rewrite neighbor_fold. done. Qed.

(** [nearby_mines] counts the mines of the board among the visited cells
    other than the centre. *)
Lemma nearby_fold g c l n :
  foldl (Minesweeper.nearby_step g c) n l =
  (n + Z.of_nat (length (filter (λ x, x ≠ c ∧ x ∈ mine_set g) l)))%Z.
Proof.
  revert n. induction l as [|x l IH]; intros n; simpl; [lia|].
  rewrite IH, filter_cons. unfold Minesweeper.nearby_step.
  destruct (decide (x = c)) as [->|Hx].
  - rewrite decide_False by tauto. done.
  - destruct (decide (in_bounds _ _ x)) as [Hb|Hb].
    + destruct (Minesweeper.board_at g x.1 x.2) eqn:Hm.
      * rewrite decide_True; [simpl; lia|].
        split; [done|]. by apply elem_of_mine_set.
      * rewrite decide_False; [done|].
        intros [_ Hin]. apply elem_of_mine_set in Hin as [_ Hin]. congruence.
    + rewrite decide_False; [done|].
      intros [_ Hin]. by apply elem_of_mine_set in Hin as [? _].
Qed.

Lemma nearby_mines_spec g c :
  Minesweeper.nearby_mines g c =
  Z.of_nat (length (filter (λ x, x ≠ c ∧ x ∈ mine_set g) (block c))).
Proof. unfold Minesweeper.nearby_mines. rewrite nearby_fold. lia. Qed.

Lemma before_resolve_fields st :
  height (before_resolve st) = height st
  ∧ width (before_resolve st) = width st
  ∧ moves_made (before_resolve st) = moves_made st
  ∧ mines (before_resolve st) = mines st ∪ collect_mines (knowledge st)
  ∧ safes (before_resolve st) = safes st ∪ collect_safes (knowledge st).
Proof.
  unfold before_resolve, mark_mines, mark_safes. simpl.
  set (M := collect_mines (knowledge st)).
  set (S := collect_safes (knowledge st)).
  destruct (decide (M = ∅)) as [HM|HM], (decide (S = ∅)) as [HS|HS];
    repeat match goal with
      | |- context [foldl mark_safe ?s ?l] =>
          destruct (fold_mark_safe_fields l s) as (-> & -> & -> & -> & ->)
      | |- context [foldl mark_mine ?s ?l] =>
          destruct (fold_mark_mine_fields l s) as (-> & -> & -> & -> & ->)
      end;
    rewrite ?list_to_set_elements_L; repeat split; set_solver.
Qed.

Lemma pass_fields st :
  height (pass st).1 = height st
  ∧ width (pass st).1 = width st
  ∧ moves_made (pass st).1 = moves_made st
  ∧ mines (pass st).1 = mines st ∪ collect_mines (knowledge st)
  ∧ safes (pass st).1 = safes st ∪ collect_safes (knowledge st)
  ∧ knowledge (pass st).1 =
      knowledge (before_resolve st) ++ resolve (knowledge (before_resolve st)).
Proof.
  pose proof (before_resolve_fields st) as (? & ? & ? & ? & ?).
  unfold pass. simpl. done.
Qed.

Lemma fixpoint_loop_S fuel st :
  fixpoint_loop (S fuel) st =
  if (pass st).2 then fixpoint_loop fuel (pass st).1 else Some (pass st).1.
Proof. simpl. by destruct (pass st). Qed.

Lemma pass_new_info st :
  (pass st).2 =
  negb (bool_decide (collect_mines (knowledge st) = ∅))
  || negb (bool_decide (collect_safes (knowledge st) = ∅))
  || negb (bool_decide (resolve (knowledge (before_resolve st)) = [])).
Proof. reflexivity. Qed.

Lemma knowledge_set_knowledge st K : knowledge (set_knowledge st K) = K.
Proof. reflexivity. Qed.

Lemma loop_dims fuel st st' :
  fixpoint_loop fuel st = Some st' →
  height st' = height st ∧ width st' = width st
  ∧ moves_made st' = moves_made st.
Proof.
  revert st. induction fuel as [|fuel IH]; intros st; [done|].
  rewrite fixpoint_loop_S.
  pose proof (pass_fields st) as (Hh & Hw & Hm & _).
  destruct (pass st).2.
  - intros H. apply IH in H as (-> & -> & ->). done.
  - intros [= <-]. done.
Qed.

Lemma add_knowledge_dims fuel st c n st' :
  add_knowledge fuel st c n = Some st' →
  height st' = height st ∧ width st' = width st
  ∧ moves_made st' = moves_made st ∪ {[c]}.
Proof. unfold add_knowledge. intros H. by apply loop_dims in H. Qed.

Lemma elem_of_resolve K s :
  s ∈ resolve K ↔
  ∃ s1 s2, s1 ∈ K ∧ s2 ∈ K ∧ resolvable s1 s2
           ∧ s = inferred s1 s2 ∧ s ∉ K.
Proof.
  unfold resolve. rewrite list_elem_of_bind. split.
  - intros (s1 & Hs & H1). apply list_elem_of_bind in Hs as (s2 & Hs & H2).
    repeat case_decide; try by apply elem_of_nil in Hs.
    apply list_elem_of_singleton in Hs as ->. eauto 10.
  - intros (s1 & s2 & H1 & H2 & Hr & -> & Hn).
    exists s1. split; [|done]. apply list_elem_of_bind.
    exists s2. split; [|done].
    rewrite decide_True by done. rewrite decide_False by done.
    by apply list_elem_of_singleton.
Qed.

(** ** Invariants of the knowledge base, generically *)

Lemma holds_init Pm Ps Ok h w : holds Pm Ps Ok (init h w).
Proof. repeat split; simpl; set_solver. Qed.

Section Invariant.
Variables Pm Ps : cell → Prop.
Variable Ok : gset cell → gset cell → Sentence.t → Prop.

Hypothesis Ok_mark_mine : ∀ M S s c,
  Pm c → Ok M S s → Ok (M ∪ {[c]}) S (Sentence.mark_mine c s).
Hypothesis Ok_mark_safe : ∀ M S s c,
  Ps c → Ok M S s → Ok M (S ∪ {[c]}) (Sentence.mark_safe c s).
Hypothesis Ok_inferred : ∀ M S s1 s2,
  Ok M S s1 → Ok M S s2 → resolvable s1 s2 → Ok M S (inferred s1 s2).
Hypothesis Ok_known_mines : ∀ M S s c,
  Ok M S s → c ∈ Sentence.known_mines s → Pm c.
Hypothesis Ok_known_safes : ∀ M S s c,
  Ok M S s → c ∈ Sentence.known_safes s → Ps c.

Lemma holds_mark_mine st c :
  holds Pm Ps Ok st → Pm c → holds Pm Ps Ok (mark_mine st c).
Proof using Ok_mark_mine.
  intros (Hm & Hs & HK) Hc. repeat split; simpl.
  - intros x [?| ->%elem_of_singleton]%elem_of_union; auto.
  - done.
  - apply Forall_fmap. eapply Forall_impl; [exact HK|].
    intros s Hok. simpl. by apply Ok_mark_mine.
Qed.

Lemma holds_mark_safe st c :
  holds Pm Ps Ok st → Ps c → holds Pm Ps Ok (mark_safe st c).
Proof using Ok_mark_safe.
  intros (Hm & Hs & HK) Hc. repeat split; simpl.
  - done.
  - intros x [?| ->%elem_of_singleton]%elem_of_union; auto.
  - apply Forall_fmap. eapply Forall_impl; [exact HK|].
    intros s Hok. simpl. by apply Ok_mark_safe.
Qed.

Lemma holds_fold_mark_mine l st :
  holds Pm Ps Ok st → (∀ c, c ∈ l → Pm c) →
  holds Pm Ps Ok (foldl mark_mine st l).
Proof using Ok_mark_mine.
  revert st. induction l as [|c l IH]; intros st Hst Hl; simpl; [done|].
  apply IH.
  - apply holds_mark_mine; [done|]. apply Hl, elem_of_cons. by left.
  - intros x Hx. apply Hl, elem_of_cons. by right.
Qed.

Lemma holds_fold_mark_safe l st :
  holds Pm Ps Ok st → (∀ c, c ∈ l → Ps c) →
  holds Pm Ps Ok (foldl mark_safe st l).
Proof using Ok_mark_safe.
  revert st. induction l as [|c l IH]; intros st Hst Hl; simpl; [done|].
  apply IH.
  - apply holds_mark_safe; [done|]. apply Hl, elem_of_cons. by left.
  - intros x Hx. apply Hl, elem_of_cons. by right.
Qed.

Lemma holds_collected st :
  holds Pm Ps Ok st →
  (∀ c, c ∈ collect_mines (knowledge st) → Pm c)
  ∧ (∀ c, c ∈ collect_safes (knowledge st) → Ps c).
Proof using Ok_known_mines Ok_known_safes.
  intros (_ & _ & HK). rewrite Forall_forall in HK. split; intros c.
  - intros (s & Hs & Hc)%elem_of_collect_mines. eauto.
  - intros (s & Hs & Hc)%elem_of_collect_safes. eauto.
Qed.

Lemma holds_set_knowledge st K :
  holds Pm Ps Ok st → Forall (Ok (mines st) (safes st)) K →
  holds Pm Ps Ok (set_knowledge st K).
Proof using Type. intros (Hm & Hs & _) HK. by repeat split. Qed.

Lemma holds_before_resolve st :
  holds Pm Ps Ok st → holds Pm Ps Ok (before_resolve st).
Proof using Ok_mark_mine Ok_mark_safe Ok_known_mines Ok_known_safes.
  intros Hst. destruct (holds_collected st Hst) as [HM HS].
  unfold before_resolve.
  set (M := collect_mines (knowledge st)) in *.
  set (S := collect_safes (knowledge st)) in *.
  set (st1 := if decide (M = ∅) then st else mark_mines st M).
  set (st2 := if decide (S = ∅) then st1 else mark_safes st1 S).
  assert (H1 : holds Pm Ps Ok st1).
  { unfold st1. case_decide; [done|]. apply holds_fold_mark_mine; [done|].
    intros c Hc. apply HM. by apply elem_of_elements. }
  assert (H2 : holds Pm Ps Ok st2).
  { unfold st2. case_decide; [done|]. apply holds_fold_mark_safe; [done|].
    intros c Hc. apply HS. by apply elem_of_elements. }
  apply holds_set_knowledge; [done|].
  destruct H2 as (_ & _ & HK). rewrite Forall_forall in HK.
  apply Forall_forall. intros s Hs. apply HK. by apply elem_of_purge.
Qed.

Lemma holds_pass st : holds Pm Ps Ok st → holds Pm Ps Ok (pass st).1.
Proof using All.
  intros Hst. apply holds_before_resolve in Hst.
  unfold pass. simpl. apply holds_set_knowledge; [done|].
  destruct Hst as (_ & _ & HK). apply Forall_app. split; [done|].
  rewrite Forall_forall in HK. apply Forall_forall.
  intros s (s1 & s2 & H1 & H2 & Hr & -> & _)%elem_of_resolve.
  apply Ok_inferred; auto.
Qed.

Lemma holds_loop fuel st st' :
  holds Pm Ps Ok st → fixpoint_loop fuel st = Some st' →
  holds Pm Ps Ok st'.
Proof using All.
  revert st. induction fuel as [|fuel IH]; intros st Hst; [done|].
  rewrite fixpoint_loop_S. apply holds_pass in Hst.
  destruct (pass st).2; [by apply IH|]. by intros [= <-].
Qed.

Lemma holds_observe st c n :
  holds Pm Ps Ok st → Ps c →
  Ok (mines st) (safes st ∪ {[c]})
     (new_sentence (mark_safe (record_move st c) c) c n) →
  holds Pm Ps Ok (observe st c n).
Proof using Ok_mark_safe.
  intros Hst Hc Hnew.
  assert (H2 : holds Pm Ps Ok (mark_safe (record_move st c) c)).
  { apply holds_mark_safe; [|done]. exact Hst. }
  unfold observe. apply holds_set_knowledge; [done|].
  apply Forall_app. split; [by destruct H2 as (_ & _ & ?)|].
  by apply Forall_singleton.
Qed.

Lemma holds_add_knowledge fuel st c n st' :
  holds Pm Ps Ok st → Ps c →
  Ok (mines st) (safes st ∪ {[c]})
     (new_sentence (mark_safe (record_move st c) c) c n) →
  add_knowledge fuel st c n = Some st' →
  holds Pm Ps Ok st'.
Proof using All.
  intros Hst Hc Hnew. unfold add_knowledge. apply holds_loop.
  by apply holds_observe.
Qed.

End Invariant.

(** ** Instance: classified cells never occur in a sentence *)

Lemma separated_mark_mine M S s c :
  True → separated M S s → separated (M ∪ {[c]}) S (Sentence.mark_mine c s).
Proof.
  intros _ [HM HS]. unfold separated, Sentence.mark_mine.
  case_decide; simpl; split; set_solver.
Qed.

Lemma separated_mark_safe M S s c :
  True → separated M S s → separated M (S ∪ {[c]}) (Sentence.mark_safe c s).
Proof.
  intros _ [HM HS]. unfold separated, Sentence.mark_safe.
  case_decide; simpl; split; set_solver.
Qed.

Lemma separated_inferred M S s1 s2 :
  separated M S s1 → separated M S s2 → resolvable s1 s2 →
  separated M S (inferred s1 s2).
Proof. intros _ [HM HS] _. unfold separated, inferred. simpl. set_solver. Qed.

Lemma separated_new_sentence st c n :
  separated (mines st) (safes st ∪ {[c]})
            (new_sentence (mark_safe (record_move st c) c) c n).
Proof.
  split; intros x Hx%new_sentence_cells; simpl in Hx; tauto.
Qed.

Lemma reachable_separated h w st :
  reachable h w st → holds (λ _, True) (λ _, True) separated st.
Proof.
  induction 1 as [|st c _ IH|st c _ IH|st c n fuel st' _ IH Hadd].
  - apply holds_init.
  - apply holds_mark_mine; [apply separated_mark_mine|done..].
  - apply holds_mark_safe; [apply separated_mark_safe|done..].
  - eapply (holds_add_knowledge _ _ _ separated_mark_mine
              separated_mark_safe separated_inferred
              (λ _ _ _ _ _ _, I) (λ _ _ _ _ _ _, I));
      [exact IH|done|apply separated_new_sentence|exact Hadd].
Qed.

(** ** Instance: everything stays on the board *)

Lemma bounded_mark_mine h w M S s c :
  in_bounds h w c → bounded h w M S s →
  bounded h w (M ∪ {[c]}) S (Sentence.mark_mine c s).
Proof.
  intros _ Hs x. unfold Sentence.mark_mine.
  case_decide; simpl; [|apply Hs]. intros Hx. apply Hs. set_solver.
Qed.

Lemma bounded_mark_safe h w M S s c :
  in_bounds h w c → bounded h w M S s →
  bounded h w M (S ∪ {[c]}) (Sentence.mark_safe c s).
Proof.
  intros _ Hs x. unfold Sentence.mark_safe.
  case_decide; simpl; [|apply Hs]. intros Hx. apply Hs. set_solver.
Qed.

Lemma bounded_inferred h w M S s1 s2 :
  bounded h w M S s1 → bounded h w M S s2 → resolvable s1 s2 →
  bounded h w M S (inferred s1 s2).
Proof. intros _ H2 _ x. unfold inferred. simpl. intros Hx. apply H2. set_solver. Qed.

Lemma bounded_known_mines h w M S s c :
  bounded h w M S s → c ∈ Sentence.known_mines s → in_bounds h w c.
Proof. intros Hs Hc%elem_of_known_mines. apply Hs. tauto. Qed.

Lemma bounded_known_safes h w M S s c :
  bounded h w M S s → c ∈ Sentence.known_safes s → in_bounds h w c.
Proof. intros Hs Hc%elem_of_known_safes. apply Hs. tauto. Qed.

Lemma bounded_new_sentence st c n M S :
  bounded (height st) (width st) M S
          (new_sentence (mark_safe (record_move st c) c) c n).
Proof. intros x Hx%new_sentence_cells. simpl in Hx. tauto. Qed.

Lemma run_bounded h w fuel obs st st' :
  height st = h → width st = w →
  holds (in_bounds h w) (in_bounds h w) (bounded h w) st →
  Forall (λ o : cell * Z, in_bounds h w o.1) obs →
  run fuel st obs = Some st' →
  holds (in_bounds h w) (in_bounds h w) (bounded h w) st'.
Proof.
  revert st. induction obs as [|[c n] obs IH]; intros st Hh Hw Hst Hobs; simpl.
  - by intros [= <-].
  - destruct (add_knowledge fuel st c n) as [st1|] eqn:Hadd; [|done].
    apply Forall_cons in Hobs as [Hc Hobs]. simpl in Hc.
    pose proof (add_knowledge_dims _ _ _ _ _ Hadd) as (Hh1 & Hw1 & _).
    apply IH; [congruence|congruence| |done].
    eapply (holds_add_knowledge _ _ _ (bounded_mark_mine h w)
              (bounded_mark_safe h w) (bounded_inferred h w)
              (bounded_known_mines h w) (bounded_known_safes h w));
      [exact Hst|exact Hc| |exact Hadd].
    subst h w. apply bounded_new_sentence.
Qed.

(** ** Instance: play on a board keeps every sentence true of that board *)

Lemma length_filter_split {A} (P Q R : A → Prop)
    `{!∀ x, Decision (P x), !∀ x, Decision (Q x), !∀ x, Decision (R x)}
    (l : list A) :
  (∀ x, x ∈ l → (P x ↔ Q x ∨ R x) ∧ ¬ (Q x ∧ R x)) →
  length (filter P l) = length (filter Q l) + length (filter R l).
Proof.
  induction l as [|x l IH]; intros Hl; [done|].
  rewrite !filter_cons.
  destruct (Hl x) as [Hiff Hex]; [apply elem_of_cons; by left|].
  assert (IH' := IH (λ y Hy, Hl y (proj2 (elem_of_cons l y x) (or_intror Hy)))).
  destruct (decide (P x)), (decide (Q x)), (decide (R x)); simpl;
    rewrite ?IH'; try lia; tauto.
Qed.

Section Sound.
Variable g : Minesweeper.t.

Lemma sound_mark_mine M S s c :
  c ∈ mine_set g → sound g M S s →
  sound g (M ∪ {[c]}) S (Sentence.mark_mine c s).
Proof.
  intros Hc (Hb & [HM HS] & Hn). unfold sound, separated, Sentence.mark_mine.
  case_decide as Hin; simpl.
  - split; [set_solver|]. split; [set_solver|]. rewrite Hn.
    replace ((Sentence.cells s ∖ {[c]}) ∩ mine_set g)
      with ((Sentence.cells s ∩ mine_set g) ∖ {[c]}) by set_solver.
    assert (Hsub : {[c]} ⊆ Sentence.cells s ∩ mine_set g) by set_solver.
    rewrite (size_difference (Sentence.cells s ∩ mine_set g) {[c]}) by done.
    apply subseteq_size in Hsub. rewrite size_singleton in *. lia.
  - split; [done|]. split; [|done]. set_solver.
Qed.

Lemma sound_mark_safe M S s c :
  c ∉ mine_set g → sound g M S s →
  sound g M (S ∪ {[c]}) (Sentence.mark_safe c s).
Proof.
  intros Hc (Hb & [HM HS] & Hn). unfold sound, separated, Sentence.mark_safe.
  case_decide as Hin; simpl.
  - split; [set_solver|]. split; [set_solver|]. rewrite Hn.
    do 2 f_equal. set_solver.
  - split; [done|]. split; [|done]. set_solver.
Qed.

Lemma sound_inferred M S s1 s2 :
  sound g M S s1 → sound g M S s2 → resolvable s1 s2 →
  sound g M S (inferred s1 s2).
Proof.
  intros (_ & _ & Hn1) (Hb & [HM HS] & Hn2) (Hsub & _ & _).
  unfold sound, separated, inferred. simpl.
  split; [set_solver|]. split; [set_solver|]. rewrite Hn1, Hn2.
  replace ((Sentence.cells s2 ∖ Sentence.cells s1) ∩ mine_set g)
    with ((Sentence.cells s2 ∩ mine_set g) ∖ (Sentence.cells s1 ∩ mine_set g))
    by set_solver.
  assert (Hs : Sentence.cells s1 ∩ mine_set g ⊆ Sentence.cells s2 ∩ mine_set g)
    by set_solver.
  rewrite (size_difference (Sentence.cells s2 ∩ mine_set g)
             (Sentence.cells s1 ∩ mine_set g)) by done.
  apply subseteq_size in Hs. lia.
Qed.

Lemma sound_known_mines M S s c :
  sound g M S s → c ∈ Sentence.known_mines s → c ∈ mine_set g.
Proof.
  intros (_ & _ & Hn) (Hc & Hsz & _)%elem_of_known_mines.
  assert (Heq : Sentence.cells s ∩ mine_set g = Sentence.cells s).
  { apply set_subseteq_size_eq; [set_solver|lia]. }
  set_solver.
Qed.

Lemma sound_known_safes M S s c :
  sound g M S s → c ∈ Sentence.known_safes s → c ∉ mine_set g.
Proof.
  intros (_ & _ & Hn) (Hc & H0)%elem_of_known_safes.
  assert (Hsz : size (Sentence.cells s ∩ mine_set g) = 0) by lia.
  apply size_empty_inv in Hsz. set_solver.
Qed.

(** The sentence built from an observation of the board is true of it. *)
Lemma sound_new_sentence st c n :
  inv g st → observed g (c, n) →
  sound g (mines st) (safes st ∪ {[c]})
        (new_sentence (mark_safe (record_move st c) c) c n).
Proof.
  intros (Hh & Hw & Hm & Hs & _) (Hin & Hc & Hn). simpl in Hin, Hc, Hn.
  set (st2 := mark_safe (record_move st c) c).
  split; [|split].
  - intros x Hx%new_sentence_cells. apply elem_of_board_cells.
    simpl in Hx. rewrite <- Hh, <- Hw. tauto.
  - apply separated_new_sentence.
  - rewrite new_sentence_count. subst n. rewrite nearby_mines_spec.
    unfold new_sentence. rewrite neighbor_fold. simpl.
    rewrite union_empty_l_L.
    set (good := λ x : cell,
           in_bounds (height st) (width st) x
           ∧ (x ∉ safes st ∪ {[c]}) ∧ (x ∉ mines st)).
    replace (list_to_set (filter good (block c)) ∩ mine_set g)
      with (list_to_set (C := gset cell)
              (filter (λ x, good x ∧ x ∈ mine_set g) (block c))).
    2:{ apply set_eq. intros x.
        rewrite elem_of_intersection, !elem_of_list_to_set,
          !list_elem_of_filter. tauto. }
    rewrite size_list_to_set by apply NoDup_filter, NoDup_block.
    rewrite (length_filter_split (λ x, x ≠ c ∧ x ∈ mine_set g)
               (λ x, x ∈ mines st) (λ x, good x ∧ x ∈ mine_set g)); [lia|].
    intros x _. unfold good. split; [split|].
    + intros [Hne HG]. destruct (decide (x ∈ mines st)) as [|Hnm]; [by left|].
      right. split; [|done]. split; [|split; [|done]].
      * rewrite Hh, Hw. by apply elem_of_mine_set in HG as [? _].
      * intros [Hx|Hx%elem_of_singleton]%elem_of_union; [|done].
        by apply Hs in Hx.
    + intros [Hx|[(_ & Hx & _) HG]].
      * split; [|by apply Hm]. intros ->. by apply Hm in Hx.
      * split; [|done]. intros ->. apply Hx. set_solver.
    + intros [Hx [(_ & _ & Hnx) _]]. done.
Qed.

Lemma inv_init :
  inv g (init (Minesweeper.height g) (Minesweeper.width g)).
Proof. repeat split; simpl; set_solver. Qed.

Lemma inv_mark_mine st c : inv g st → c ∈ mine_set g → inv g (mark_mine st c).
Proof.
  intros (Hh & Hw & Hst) Hc. repeat split; try done.
  all: apply (holds_mark_mine _ _ _ sound_mark_mine st c Hst Hc).
Qed.

Lemma inv_mark_safe st c : inv g st → c ∉ mine_set g → inv g (mark_safe st c).
Proof.
  intros (Hh & Hw & Hst) Hc. repeat split; try done.
  all: apply (holds_mark_safe _ _ _ sound_mark_safe st c Hst Hc).
Qed.

Lemma inv_pass st : inv g st → inv g (pass st).1.
Proof.
  intros (Hh & Hw & Hst).
  pose proof (pass_fields st) as (Hh' & Hw' & _).
  split; [congruence|]. split; [congruence|].
  apply (holds_pass _ _ _ sound_mark_mine sound_mark_safe sound_inferred
           sound_known_mines sound_known_safes st Hst).
Qed.

Lemma inv_observe st c n : inv g st → observed g (c, n) → inv g (observe st c n).
Proof.
  intros Hinv Hobs. pose proof (sound_new_sentence st c n Hinv Hobs) as Hnew.
  destruct Hinv as (Hh & Hw & Hst). split; [done|]. split; [done|].
  apply (holds_observe _ _ _ sound_mark_safe st c n Hst); [|done].
  by destruct Hobs as (_ & ? & _).
Qed.

Lemma inv_loop fuel st st' :
  inv g st → fixpoint_loop fuel st = Some st' → inv g st'.
Proof.
  revert st. induction fuel as [|fuel IH]; intros st Hst; [done|].
  rewrite fixpoint_loop_S. apply inv_pass in Hst.
  destruct (pass st).2; [by apply IH|]. by intros [= <-].
Qed.

Lemma played_inv st : played g st → inv g st.
Proof.
  induction 1 as [|st c _ IH Hc|st c _ IH Hc|st c n fuel st' _ IH Hobs Hadd].
  - apply inv_init.
  - by apply inv_mark_mine.
  - by apply inv_mark_safe.
  - eapply inv_loop; [|exact Hadd]. by apply inv_observe.
Qed.

Lemma run_played fuel obs st st' :
  played g st → Forall (observed g) obs →
  run fuel st obs = Some st' → played g st'.
Proof.
  revert st. induction obs as [|[c n] obs IH]; intros st Hst Hobs; simpl.
  - by intros [= <-].
  - destruct (add_knowledge fuel st c n) as [st1|] eqn:Hadd; [|done].
    apply Forall_cons in Hobs as [Hc Hobs].
    apply IH; [|done]. by eapply played_add_knowledge.
Qed.

End Sound.

(** ** Termination of the fixed-point loop *)

Lemma elem_of_subsets l X : X ⊆ list_to_set l → X ∈ subsets l.
Proof.
  revert X. induction l as [|x l IH]; intros X HX; simpl.
  - apply list_elem_of_singleton. set_solver.
  - apply elem_of_app. destruct (decide (x ∈ X)) as [Hx|Hx].
    + right. apply list_elem_of_fmap. exists (X ∖ {[x]}). split.
      * apply set_eq. intros y. rewrite elem_of_union, elem_of_singleton,
          elem_of_difference, elem_of_singleton.
        destruct (decide (y = x)) as [->|]; tauto.
      * apply IH. set_solver.
    + left. apply IH. set_solver.
Qed.

Lemma length_filter_mono {A} (P Q : A → Prop)
    `{!∀ x, Decision (P x), !∀ x, Decision (Q x)} (l : list A) :
  (∀ y, y ∈ l → Q y → P y) → length (filter Q l) ≤ length (filter P l).
Proof.
  induction l as [|y l IH]; intros HPQ; [done|].
  rewrite !filter_cons.
  assert (IH' := IH (λ z Hz, HPQ z (proj2 (elem_of_cons l z y) (or_intror Hz)))).
  assert (Hy := HPQ y (proj2 (elem_of_cons l y y) (or_introl eq_refl))).
  destruct (decide (P y)), (decide (Q y)); simpl; try lia. tauto.
Qed.

Lemma length_filter_strict {A} (P Q : A → Prop)
    `{!∀ x, Decision (P x), !∀ x, Decision (Q x)} (l : list A) x :
  (∀ y, y ∈ l → Q y → P y) → x ∈ l → P x → ¬ Q x →
  length (filter Q l) < length (filter P l).
Proof.
  induction l as [|y l IH]; intros HPQ Hx HP HQ; [by apply elem_of_nil in Hx|].
  rewrite !filter_cons.
  assert (HPQ' : ∀ z, z ∈ l → Q z → P z)
    by (intros z Hz; apply HPQ, elem_of_cons; by right).
  assert (Hy := HPQ y (proj2 (elem_of_cons l y y) (or_introl eq_refl))).
  pose proof (length_filter_mono P Q l HPQ') as Hle.
  apply elem_of_cons in Hx as [->|Hx].
  - destruct (decide (P y)), (decide (Q y)); simpl; try lia; tauto.
  - specialize (IH HPQ' Hx HP HQ).
    destruct (decide (P y)), (decide (Q y)); simpl; try lia. tauto.
Qed.

Lemma sound_eq g M S s1 s2 :
  sound g M S s1 → sound g M S s2 →
  Sentence.cells s1 = Sentence.cells s2 → s1 = s2.
Proof.
  intros (_ & _ & H1) (_ & _ & H2) Heq.
  destruct s1 as [X1 n1], s2 as [X2 n2]. simpl in *. subst X2. congruence.
Qed.

Section Termination.
Variable g : Minesweeper.t.
Local Notation h := (Minesweeper.height g).
Local Notation w := (Minesweeper.width g).

(** A pass that reports new information either classifies a board cell
    that was unknown, or leaves the known sets alone and stores a sentence
    over a set of cells that no stored sentence had. *)
Lemma pass_progress st :
  inv g st → (pass st).2 = true →
  unknown h w (pass st).1 < unknown h w st
  ∨ (unknown h w (pass st).1 = unknown h w st
     ∧ unseen h w (pass st).1 < unseen h w st).
Proof.
  intros Hinv Hnew.
  pose proof (pass_fields st) as (_ & _ & _ & Hm & Hs & HK).
  destruct Hinv as (Hh & Hw & _ & _ & Hsound).
  rewrite Forall_forall in Hsound.
  destruct (decide (collect_mines (knowledge st) = ∅)) as [HM|HM];
    [destruct (decide (collect_safes (knowledge st) = ∅)) as [HS|HS]|].
  - (* nothing to mark: the sentences are untouched *)
    right.
    assert (Hbr : before_resolve st = set_knowledge st (purge (knowledge st))).
    { unfold before_resolve. by rewrite !decide_True by done. }
    rewrite Hbr, knowledge_set_knowledge in HK.
    split; [unfold unknown; rewrite Hm, Hs, HM, HS; f_equal; set_solver|].
    rewrite pass_new_info, Hbr, knowledge_set_knowledge,
      (bool_decide_eq_true_2 _ HM), (bool_decide_eq_true_2 _ HS) in Hnew.
    apply negb_true_iff, bool_decide_eq_false in Hnew.
    destruct (resolve (purge (knowledge st))) as [|r rs] eqn:Hres; [done|].
    assert (Hr : r ∈ resolve (purge (knowledge st)))
      by (rewrite Hres; apply elem_of_cons; by left).
    apply elem_of_resolve in Hr as (s1 & s2 & H1 & H2 & Hr & -> & Hfresh).
    pose proof (Hsound _ (elem_of_purge _ _ H1)) as Hs1.
    pose proof (Hsound _ (elem_of_purge _ _ H2)) as Hs2.
    pose proof (sound_inferred g _ _ _ _ Hs1 Hs2 Hr) as Hsr.
    assert (Hne : Sentence.cells (inferred s1 s2) ≠ ∅).
    { intros He. destruct Hr as (Hsub & _ & Hdiff). apply Hdiff.
      eapply sound_eq; [done..|]. simpl in He.
      apply set_eq. intros x. split; [apply Hsub|]. intros Hx.
      destruct (decide (x ∈ Sentence.cells s1)) as [|Hn]; [done|].
      assert (Hd : x ∈ Sentence.cells s2 ∖ Sentence.cells s1)
        by (apply elem_of_difference; done).
      rewrite He in Hd. by apply not_elem_of_empty in Hd. }
    unfold unseen. rewrite HK.
    apply (length_filter_strict _ _ _ (Sentence.cells (inferred s1 s2))).
    + intros Y _ [HY HnY]. split; [done|]. intros HYK. apply HnY.
      apply list_elem_of_fmap in HYK as (s & -> & Hs0).
      apply list_elem_of_fmap. exists s. split; [done|].
      apply elem_of_app. left. by apply purge_keeps.
    + apply elem_of_subsets. by destruct Hsr as [? _].
    + split; [done|].
      intros (s & Hcs & Hs0)%list_elem_of_fmap. apply Hfresh.
      assert (s = inferred s1 s2) as <-
          by (symmetry in Hcs; eapply sound_eq; eauto).
      apply purge_keeps; [done|]. by rewrite <- Hcs.
    + intros [_ Hn]. apply Hn. apply list_elem_of_fmap.
      eexists. split; [done|]. apply elem_of_app. right.
      apply elem_of_cons. by left.
  - (* a cell is found safe *)
    left. apply set_choose_L in HS as (c & Hc).
    pose proof Hc as (s & Hs0 & Hcs)%elem_of_collect_safes.
    apply elem_of_known_safes in Hcs as [Hcs _].
    destruct (Hsound _ Hs0) as (Hb & [HsM HsS] & _).
    unfold unknown. rewrite Hm, Hs. apply subset_size.
    clear -Hc Hcs Hb HsM HsS.
    split; [set_solver|]. intros Hsub.
    assert (Hin : c ∈ board_cells h w ∖ (mines st ∪ safes st)) by set_solver.
    apply Hsub in Hin. set_solver.
  - (* a cell is found to be a mine *)
    left. apply set_choose_L in HM as (c & Hc).
    pose proof Hc as (s & Hs0 & Hcs)%elem_of_collect_mines.
    apply elem_of_known_mines in Hcs as [Hcs _].
    destruct (Hsound _ Hs0) as (Hb & [HsM HsS] & _).
    unfold unknown. rewrite Hm, Hs. apply subset_size.
    clear -Hc Hcs Hb HsM HsS.
    split; [set_solver|]. intros Hsub.
    assert (Hin : c ∈ board_cells h w ∖ (mines st ∪ safes st)) by set_solver.
    apply Hsub in Hin. set_solver.
Qed.

Lemma loop_terminates st :
  inv g st → ∃ fuel st', fixpoint_loop fuel st = Some st'.
Proof.
  remember (unknown h w st) as a eqn:Ha. revert st Ha.
  induction a as [a IHa] using lt_wf_ind. intros st Ha.
  remember (unseen h w st) as b eqn:Hb. revert st Ha Hb.
  induction b as [b IHb] using lt_wf_ind. intros st Ha Hb Hinv.
  destruct (pass st).2 eqn:Hp.
  - pose proof (inv_pass g st Hinv) as Hinv'.
    destruct (pass_progress st Hinv Hp) as [Hlt|[Heq Hlt]].
    + destruct (IHa _ ltac:(subst a; exact Hlt) (pass st).1 eq_refl Hinv')
        as (fuel & st' & Hf).
      exists (S fuel), st'. by rewrite fixpoint_loop_S, Hp.
    + destruct (IHb _ ltac:(subst b; exact Hlt) (pass st).1
                  ltac:(congruence) eq_refl Hinv')
        as (fuel & st' & Hf).
      exists (S fuel), st'. by rewrite fixpoint_loop_S, Hp.
  - exists 1, (pass st).1. by rewrite fixpoint_loop_S, Hp.
Qed.

End Termination.

Lemma fixpoint_loop_mono fuel fuel' st st' :
  fixpoint_loop fuel st = Some st' → fuel ≤ fuel' →
  fixpoint_loop fuel' st = Some st'.
Proof.
  revert fuel' st. induction fuel as [|fuel IH]; intros fuel' st; [done|].
  intros Hf Hle. destruct fuel' as [|fuel']; [lia|].
  rewrite fixpoint_loop_S in *. destruct (pass st).2; [|done].
  apply IH; [done|lia].
Qed.

Lemma run_mono fuel fuel' obs st st' :
  run fuel st obs = Some st' → fuel ≤ fuel' → run fuel' st obs = Some st'.
Proof.
  revert st. induction obs as [|[c n] obs IH]; intros st; simpl; [done|].
  intros Hr Hle. unfold add_knowledge in *.
  destruct (fixpoint_loop fuel _) as [st1|] eqn:Hf; [|done].
  rewrite (fixpoint_loop_mono _ _ _ _ Hf Hle). by apply IH.
Qed.

(** Every sequence of observations of a board can be integrated: with
    enough fuel per call, [run] returns. *)
Lemma run_terminates g obs st :
  played g st → Forall (observed g) obs →
  ∃ fuel st', run fuel st obs = Some st'.
Proof.
  revert st. induction obs as [|[c n] obs IH]; intros st Hst Hobs.
  - by exists 0, st.
  - apply Forall_cons in Hobs as [Hc Hobs].
    destruct (loop_terminates g (observe st c n)) as (f1 & st1 & H1).
    { apply inv_observe; [by apply played_inv|done]. }
    destruct (IH st1) as (f2 & st2 & H2); [|done|].
    { by eapply played_add_knowledge. }
    exists (f1 `max` f2), st2. simpl. unfold add_knowledge.
    rewrite (fixpoint_loop_mono _ (f1 `max` f2) _ _ H1) by lia.
    apply (run_mono f2); [done|lia].
Qed.

(** * The claims *)

Lemma game_2x3_observed : Forall (observed board_2x3) game_2x3.
Proof. apply (bool_decide_unpack _). vm_compute. exact I. Qed.

Lemma game_2x2_observed : Forall (observed board_2x2) game_2x2.
Proof. apply (bool_decide_unpack _). vm_compute. exact I. Qed.

(** C1, as stated, fails: nothing in [add_knowledge] checks that an
    observation agrees with what is already known.  On a 2 by 2 board,
    [add_knowledge((0,0), 3)] declares the other three cells mines, and
    [add_knowledge((0,1), 0)] then declares one of them safe. *)
Lemma mines_safes_overlap :
  ∃ st, run 2 (init 2 2) [((0, 0), 3); ((0, 1), 0)]%Z = Some st
        ∧ mines st ∩ safes st ≠ ∅.
Proof.
  eexists. split; [vm_compute; reflexivity|].
  apply (bool_decide_unpack _). vm_compute. exact I.
Qed.

(** C1 (amended): for every sequence of [add_knowledge] calls on a fresh
    AI whose observations are all given by one board (the cell is on the
    board and not a mine, the count is what [nearby_mines] reports), the
    known mines and the known safe cells are disjoint after each call. *)
Theorem mines_safes_disjoint g fuel obs st :
  Forall (observed g) obs →
  run fuel (init (Minesweeper.height g) (Minesweeper.width g)) obs = Some st →
  mines st ∩ safes st = ∅.
Proof.
  intros Hobs Hrun.
  pose proof (run_played g fuel obs _ st (played_init g) Hobs Hrun) as Hp.
  apply played_inv in Hp as (_ & _ & Hm & Hs & _).
  apply set_eq. intros c. rewrite elem_of_intersection. split; [|set_solver].
  intros [Hcm Hcs]. apply Hm in Hcm. by apply Hs in Hcs.
Qed.

Lemma mines_safes_disjoint_witness :
  ∃ st, run 4 (init 2 3) game_2x3 = Some st ∧ mines st ∩ safes st = ∅.
Proof.
  eexists. split; [vm_compute; reflexivity|].
  apply (mines_safes_disjoint board_2x3 4 game_2x3).
  - apply (bool_decide_unpack _). vm_compute. exact I.
  - vm_compute. reflexivity.
Defined.

(** C2: in one pass of the loop, let [K] be the knowledge the double loop
    iterates over.  For stored sentences [s1], [s2] with
    [s1.cells ⊆ s2.cells], [s1.count ≤ s2.count] and [s1 != s2], the
    sentence [(s2.cells − s1.cells, s2.count − s1.count)] is in the
    knowledge when the pass ends; if it was not yet in [K] it is among the
    sentences the pass appends and the pass reports new information; its
    count is not negative; and every sentence the pass appends is such a
    difference of two stored sentences and has a count that is not
    negative. *)
Theorem subset_resolution_adds_inferred st s1 s2 :
  s1 ∈ knowledge (before_resolve st) →
  s2 ∈ knowledge (before_resolve st) →
  Sentence.cells s1 ⊆ Sentence.cells s2 →
  (Sentence.count s1 ≤ Sentence.count s2)%Z →
  s1 ≠ s2 →
  Sentence.Build (Sentence.cells s2 ∖ Sentence.cells s1)
                 (Sentence.count s2 - Sentence.count s1)
    ∈ knowledge (pass st).1
  ∧ (Sentence.Build (Sentence.cells s2 ∖ Sentence.cells s1)
                    (Sentence.count s2 - Sentence.count s1)
       ∉ knowledge (before_resolve st) →
     Sentence.Build (Sentence.cells s2 ∖ Sentence.cells s1)
                    (Sentence.count s2 - Sentence.count s1)
       ∈ resolve (knowledge (before_resolve st))
     ∧ (pass st).2 = true)
  ∧ (0 ≤ Sentence.count s2 - Sentence.count s1)%Z
  ∧ knowledge (pass st).1
    = knowledge (before_resolve st) ++ resolve (knowledge (before_resolve st))
  ∧ (∀ s, s ∈ resolve (knowledge (before_resolve st)) →
          ∃ t1 t2,
            t1 ∈ knowledge (before_resolve st)
            ∧ t2 ∈ knowledge (before_resolve st)
            ∧ Sentence.cells t1 ⊆ Sentence.cells t2
            ∧ (Sentence.count t1 ≤ Sentence.count t2)%Z
            ∧ t1 ≠ t2
            ∧ s = Sentence.Build (Sentence.cells t2 ∖ Sentence.cells t1)
                                 (Sentence.count t2 - Sentence.count t1)
            ∧ (0 ≤ Sentence.count s)%Z).
Proof.
  intros H1 H2 Hsub Hle Hne.
  assert (Hr : resolvable s1 s2) by (by repeat split).
  change (Sentence.Build (Sentence.cells s2 ∖ Sentence.cells s1)
            (Sentence.count s2 - Sentence.count s1)) with (inferred s1 s2).
  pose proof (pass_fields st) as (_ & _ & _ & _ & _ & HK).
  assert (Hnew : inferred s1 s2 ∉ knowledge (before_resolve st) →
                 inferred s1 s2 ∈ resolve (knowledge (before_resolve st))).
  { intros Hn. apply elem_of_resolve. eauto 10. }
  split; [|split; [|split; [|split]]].
  - rewrite HK. apply elem_of_app.
    destruct (decide (inferred s1 s2 ∈ knowledge (before_resolve st))); auto.
  - intros Hn. split; [auto|]. rewrite pass_new_info.
    apply orb_true_iff. right. apply negb_true_iff, bool_decide_eq_false.
    intros Hnil. apply Hnew in Hn. rewrite Hnil in Hn. by apply elem_of_nil in Hn.
  - lia.
  - exact HK.
  - intros s (t1 & t2 & Ht1 & Ht2 & (Hs & Hl & Hd) & -> & _)%elem_of_resolve.
    exists t1, t2. repeat split; try done. simpl. lia.
Qed.

Lemma subset_resolution_adds_inferred_witness :
  let st := observe (observe (init 3 3) (1, 1)%Z 2) (0, 0)%Z 1 in
  Sentence.Build {[(0, 2); (1, 2); (2, 0); (2, 1); (2, 2)]}%Z 1
    ∈ knowledge (pass st).1.
Proof.
  intros st.
  refine (eq_ind _ (λ s, s ∈ knowledge (pass st).1)
            (proj1 (subset_resolution_adds_inferred st
                      (Sentence.Build {[(0, 1); (1, 0)]}%Z 1)
                      (Sentence.Build
                         {[(0, 1); (0, 2); (1, 0); (1, 2);
                           (2, 0); (2, 1); (2, 2)]}%Z 2)
                      _ _ _ _ _)) _ _).
  - apply (bool_decide_unpack _). vm_compute. exact I.
  - apply (bool_decide_unpack _). vm_compute. exact I.
  - apply (bool_decide_unpack _). vm_compute. exact I.
  - vm_compute. discriminate.
  - apply (bool_decide_unpack _). vm_compute. exact I.
  - vm_compute. reflexivity.
Defined.

(** C3: when the AI plays on a board, each call of [add_knowledge] with an
    observation of that board returns: some finite number of passes of the
    [while True] loop ends with [new_info] false. *)
Theorem add_knowledge_terminates g st c n :
  played g st → observed g (c, n) →
  ∃ fuel st', add_knowledge fuel st c n = Some st'.
Proof.
  intros Hst Hobs. unfold add_knowledge. apply (loop_terminates g).
  apply inv_observe; [by apply played_inv|done].
Qed.

Lemma add_knowledge_terminates_witness :
  ∃ fuel st', add_knowledge fuel (init 2 3) (0, 2)%Z 1 = Some st'.
Proof.
  apply (add_knowledge_terminates board_2x3 (init 2 3) (0, 2)%Z 1).
  - exact (played_init board_2x3).
  - apply (bool_decide_unpack _). vm_compute. exact I.
Defined.

(** C4: in every state reached from a fresh AI by calls of [mark_mine],
    [mark_safe] and [add_knowledge], no stored sentence mentions a cell of
    [mines] or of [safes]. *)
Theorem classified_cells_leave_sentences h w st s c :
  reachable h w st → s ∈ knowledge st → c ∈ Sentence.cells s →
  c ∉ mines st ∧ c ∉ safes st.
Proof.
  intros Hst Hs Hc. apply reachable_separated in Hst as (_ & _ & HK).
  rewrite Forall_forall in HK. destruct (HK s Hs) as [HM HS]. set_solver.
Qed.

Lemma classified_cells_leave_sentences_witness :
  ∃ st, add_knowledge 1 (init 2 2) (0, 0)%Z 1 = Some st
        ∧ (0, 1)%Z ∉ mines st ∧ (0, 1)%Z ∉ safes st.
Proof.
  eexists. split; [vm_compute; reflexivity|].
  eapply (classified_cells_leave_sentences 2 2 _
            (Sentence.Build {[(0, 1); (1, 0); (1, 1)]}%Z 1) (0, 1)%Z).
  - eapply (reachable_add_knowledge 2 2 (init 2 2) (0, 0)%Z 1 1).
    + apply reachable_init.
    + vm_compute. reflexivity.
  - apply (bool_decide_unpack _). vm_compute. exact I.
  - apply (bool_decide_unpack _). vm_compute. exact I.
Defined.

Lemma record_move_again st c : c ∈ moves_made st → record_move st c = st.
Proof.
  intros Hc. destruct st as [h w mv M S K]. unfold record_move. simpl in *.
  f_equal. set_solver.
Qed.

Lemma loop_safes_mono fuel st st' :
  fixpoint_loop fuel st = Some st' → safes st ⊆ safes st'.
Proof.
  revert st. induction fuel as [|fuel IH]; intros st; [done|].
  rewrite fixpoint_loop_S.
  pose proof (pass_fields st) as (_ & _ & _ & _ & Hs & _).
  assert (Hsub : safes st ⊆ safes (pass st).1) by (rewrite Hs; set_solver).
  destruct (pass st).2.
  - intros H%IH. set_solver.
  - by intros [= <-].
Qed.

(** C5, as stated, fails: [add_knowledge] never looks at [moves_made].
    Calling [add_knowledge((0,0), 1)] twice on a 2 by 2 board returns
    normally both times, and the second call appends a second sentence. *)
Lemma repeated_observation_changes_state :
  ∃ st st',
    add_knowledge 1 (init 2 2) (0, 0)%Z 1 = Some st
    ∧ (0, 0)%Z ∈ moves_made st
    ∧ add_knowledge 1 st (0, 0)%Z 1 = Some st'
    ∧ length (knowledge st) = 1
    ∧ length (knowledge st') = 2
    ∧ st' ≠ st.
Proof.
  do 2 eexists. split; [vm_compute; reflexivity|].
  split; [apply (bool_decide_unpack _); vm_compute; exact I|].
  split; [vm_compute; reflexivity|].
  split; [vm_compute; reflexivity|].
  split; [vm_compute; reflexivity|].
  apply (bool_decide_unpack _). vm_compute. exact I.
Qed.

(** C5 (amended): a call of [add_knowledge] for a cell that is already in
    [moves_made] is not rejected.  It leaves [moves_made] as it is and
    integrates the observation again: the cell is marked safe, the sentence
    built from its neighbours is appended to the knowledge (which is then
    one sentence longer), and the call is the fixed-point loop run on that
    state; whatever the loop returns still has the same [moves_made] and
    has the cell among the safe cells. *)
Theorem repeated_observation_is_integrated fuel st c n :
  c ∈ moves_made st →
  add_knowledge fuel st c n =
    fixpoint_loop fuel
      (set_knowledge (mark_safe st c)
         (knowledge (mark_safe st c) ++ [new_sentence (mark_safe st c) c n]))
  ∧ moves_made (observe st c n) = moves_made st
  ∧ c ∈ safes (observe st c n)
  ∧ knowledge (observe st c n) =
      (Sentence.mark_safe c <$> knowledge st)
      ++ [new_sentence (mark_safe st c) c n]
  ∧ (∀ st', add_knowledge fuel st c n = Some st' →
            moves_made st' = moves_made st ∧ c ∈ safes st').
Proof.
  intros Hc.
  assert (Hobs : observe st c n =
                 set_knowledge (mark_safe st c)
                   (knowledge (mark_safe st c)
                    ++ [new_sentence (mark_safe st c) c n])).
  { unfold observe. by rewrite record_move_again. }
  split; [unfold add_knowledge; by rewrite Hobs|].
  split; [rewrite Hobs; reflexivity|].
  split; [rewrite Hobs; simpl; set_solver|].
  split; [rewrite Hobs; reflexivity|].
  intros st' Hadd.
  pose proof (add_knowledge_dims _ _ _ _ _ Hadd) as (_ & _ & Hmv).
  split; [rewrite Hmv; set_solver|].
  unfold add_knowledge in Hadd. apply loop_safes_mono in Hadd.
  apply Hadd. rewrite Hobs. simpl. set_solver.
Qed.

Lemma repeated_observation_is_integrated_witness :
  add_knowledge 1 (observe (init 2 2) (0, 0)%Z 1) (0, 0)%Z 1 =
  fixpoint_loop 1
    (set_knowledge (mark_safe (observe (init 2 2) (0, 0)%Z 1) (0, 0)%Z)
       (knowledge (mark_safe (observe (init 2 2) (0, 0)%Z 1) (0, 0)%Z)
        ++ [new_sentence (mark_safe (observe (init 2 2) (0, 0)%Z 1) (0, 0)%Z)
              (0, 0)%Z 1])).
Proof.
  refine (proj1 (repeated_observation_is_integrated 1
                   (observe (init 2 2) (0, 0)%Z 1) (0, 0)%Z 1 _)).
  apply (bool_decide_unpack _). vm_compute. exact I.
Defined.

(** C6: the code stores duplicates.  On the 2 by 2 board with a mine at
    [(0,1)], the observations of [(0,0)] and [(1,0)] both end up as the
    sentence [{(0,1), (1,1)} = 1]; the second is appended without the
    membership test that guards inferred sentences. *)
Theorem duplicate_sentences_stored :
  ∃ st, run 1 (init 2 2) game_2x2 = Some st
        ∧ knowledge st = [Sentence.Build {[(0, 1); (1, 1)]}%Z 1;
                          Sentence.Build {[(0, 1); (1, 1)]}%Z 1]
        ∧ ¬ NoDup (knowledge st).
Proof.
  eexists. split; [vm_compute; reflexivity|].
  split; [vm_compute; reflexivity|].
  apply (bool_decide_unpack _). vm_compute. exact I.
Qed.

(** C7: an empty sentence survives the call.  On the 2 by 3 board with a
    mine at [(1,1)], after the observations of [(0,2)], [(0,0)] and [(0,1)]
    the knowledge is the single sentence [{} = 0]: removing from the list
    while iterating over it skips the element after each removal. *)
Theorem empty_sentence_survives :
  ∃ st, run 4 (init 2 3) game_2x3 = Some st
        ∧ knowledge st = [Sentence.Build ∅ 0].
Proof.
  eexists. split; [vm_compute; reflexivity|].
  vm_compute. reflexivity.
Qed.

(** C8, as stated, fails: no path of [add_knowledge] signals anything.  On
    a 1 by 4 board, [add_knowledge((0,0), 1)] makes [(0,1)] a known mine;
    [add_knowledge((0,2), 0)] then returns normally and leaves the sentence
    [{(0,3)} = -1] in the knowledge. *)
Lemma negative_count_kept :
  ∃ st, run 2 (init 1 4) [((0, 0), 1); ((0, 2), 0)]%Z = Some st
        ∧ knowledge st = [Sentence.Build {[(0, 3)%Z]} (-1)].
Proof.
  eexists. split; [vm_compute; reflexivity|].
  vm_compute. reflexivity.
Qed.

(** C8 (amended): when the reported count minus the number of visited
    cells already known to be mines is negative, [add_knowledge] raises
    nothing: it appends the sentence with that negative count to the
    knowledge and runs the fixed-point loop on the result. *)
Theorem negative_count_is_stored fuel st c n :
  (n - Z.of_nat (length (filter (λ x, x ∈ mines st) (block c))) < 0)%Z →
  ∃ s,
    knowledge (observe st c n) = (Sentence.mark_safe c <$> knowledge st) ++ [s]
    ∧ Sentence.count s =
        (n - Z.of_nat (length (filter (λ x, x ∈ mines st) (block c))))%Z
    ∧ (Sentence.count s < 0)%Z
    ∧ add_knowledge fuel st c n = fixpoint_loop fuel (observe st c n).
Proof.
  intros Hneg. exists (new_sentence (mark_safe (record_move st c) c) c n).
  split; [reflexivity|]. rewrite new_sentence_count. simpl.
  split; [reflexivity|]. split; [exact Hneg|reflexivity].
Qed.

Lemma negative_count_is_stored_witness :
  ∃ s,
    knowledge (observe (mark_mine (init 1 4) (0, 1)%Z) (0, 2)%Z 0) = [s]
    ∧ Sentence.count s = (-1)%Z.
Proof.
  destruct (negative_count_is_stored 0 (mark_mine (init 1 4) (0, 1)%Z)
              (0, 2)%Z 0) as (s & HK & Hn & _).
  - vm_compute. reflexivity.
  - exists s. split; [exact HK|]. rewrite Hn. vm_compute. reflexivity.
Defined.

(** C9, as stated, fails: neither [Sentence.__init__] nor [add_knowledge]
    relates the count to the cells.  On a 2 by 2 board,
    [add_knowledge((0,0), 5)] stores a sentence with three cells and
    count 5. *)
Lemma count_exceeds_cells :
  ∃ st s, run 1 (init 2 2) [((0, 0), 5)]%Z = Some st
          ∧ s ∈ knowledge st
          ∧ ¬ (0 ≤ Sentence.count s ≤ Z.of_nat (size (Sentence.cells s)))%Z.
Proof.
  exists (Build 2 2 {[(0, 0)%Z]} ∅ {[(0, 0)%Z]}
            [Sentence.Build {[(0, 1); (1, 0); (1, 1)]}%Z 5]).
  exists (Sentence.Build {[(0, 1); (1, 0); (1, 1)]}%Z 5).
  split; [vm_compute; reflexivity|].
  split; [apply list_elem_of_singleton; reflexivity|].
  apply (bool_decide_unpack _). vm_compute. exact I.
Qed.

(** C9 (amended): while the AI plays on a board (every [add_knowledge]
    is an observation of the board, [mark_mine] is called on mines of the
    board only and [mark_safe] on other cells only), every stored sentence
    satisfies [0 ≤ count ≤ |cells|] after each operation. *)
Theorem sentence_count_bounds g st s :
  played g st → s ∈ knowledge st →
  (0 ≤ Sentence.count s ≤ Z.of_nat (size (Sentence.cells s)))%Z.
Proof.
  intros Hst Hs. apply played_inv in Hst as (_ & _ & _ & _ & HK).
  rewrite Forall_forall in HK. destruct (HK s Hs) as (_ & _ & ->).
  assert (Hle : size (Sentence.cells s ∩ mine_set g) ≤ size (Sentence.cells s)).
  { apply subseteq_size. apply intersection_subseteq_l. }
  lia.
Qed.

Lemma sentence_count_bounds_witness :
  ∃ st s, add_knowledge 1 (init 2 2) (0, 0)%Z 1 = Some st
          ∧ s ∈ knowledge st
          ∧ (0 ≤ Sentence.count s ≤ Z.of_nat (size (Sentence.cells s)))%Z.
Proof.
  exists (Build 2 2 {[(0, 0)%Z]} ∅ {[(0, 0)%Z]}
            [Sentence.Build {[(0, 1); (1, 0); (1, 1)]}%Z 1]).
  exists (Sentence.Build {[(0, 1); (1, 0); (1, 1)]}%Z 1).
  split; [vm_compute; reflexivity|].
  split; [apply list_elem_of_singleton; reflexivity|].
  apply (sentence_count_bounds board_2x2
           (Build 2 2 {[(0, 0)%Z]} ∅ {[(0, 0)%Z]}
              [Sentence.Build {[(0, 1); (1, 0); (1, 1)]}%Z 1])).
  - apply (played_add_knowledge board_2x2 (init 2 2) (0, 0)%Z 1 1).
    + exact (played_init board_2x2).
    + apply (bool_decide_unpack _). vm_compute. exact I.
    + vm_compute. reflexivity.
  - apply list_elem_of_singleton. reflexivity.
Defined.

(** C10: if every cell passed to [add_knowledge] is on the board, then
    after the calls every cell of every stored sentence, every known mine
    and every known safe cell is on the board. *)
Theorem cells_stay_in_bounds h w fuel obs st :
  Forall (λ o : cell * Z, in_bounds h w o.1) obs →
  run fuel (init h w) obs = Some st →
  (∀ s c, s ∈ knowledge st → c ∈ Sentence.cells s → in_bounds h w c)
  ∧ (∀ c, c ∈ mines st → in_bounds h w c)
  ∧ (∀ c, c ∈ safes st → in_bounds h w c).
Proof.
  intros Hobs Hrun.
  destruct (run_bounded h w fuel obs (init h w) st) as (Hm & Hs & HK);
    [done|done|apply holds_init|done|done|].
  rewrite Forall_forall in HK. split; [|done].
  intros s c Hs0 Hc. by apply (HK s Hs0).
Qed.

Lemma cells_stay_in_bounds_witness :
  ∃ st, run 4 (init 2 3) game_2x3 = Some st
        ∧ (∀ c, c ∈ mines st → in_bounds 2 3 c)
        ∧ (∀ c, c ∈ safes st → in_bounds 2 3 c).
Proof.
  eexists. split; [vm_compute; reflexivity|].
  refine (proj2 (cells_stay_in_bounds 2 3 4 game_2x3 _ _ _)).
  - apply (bool_decide_unpack _). vm_compute. exact I.
  - vm_compute. reflexivity.
Defined.

(** * Further properties of the code *)

(** ** Sentences *)

Lemma Sentence_mark_mine_idemp c s :
  Sentence.mark_mine c (Sentence.mark_mine c s) = Sentence.mark_mine c s.
Proof.
  destruct s as [X n]. unfold Sentence.mark_mine. simpl.
  destruct (decide (c ∈ X)) as [Hc|Hc]; simpl.
  - rewrite decide_False by set_solver. done.
  - rewrite decide_False by done. done.
Qed.

Lemma Sentence_mark_safe_idemp c s :
  Sentence.mark_safe c (Sentence.mark_safe c s) = Sentence.mark_safe c s.
Proof.
  destruct s as [X n]. unfold Sentence.mark_safe. simpl.
  destruct (decide (c ∈ X)) as [Hc|Hc]; simpl.
  - rewrite decide_False by set_solver. done.
  - rewrite decide_False by done. done.
Qed.

(** A sentence never reports a cell both as a mine and as safe: the two
    tests of [known_mines] and [known_safes] exclude each other. *)
Theorem known_mines_safes_exclusive s :
  Sentence.known_mines s = ∅ ∨ Sentence.known_safes s = ∅.
Proof.
  unfold Sentence.known_mines, Sentence.known_safes.
  destruct (decide (Sentence.count s = 0%Z)) as [H0|H0].
  - left. rewrite decide_False; [done|]. tauto.
  - by right.
Qed.

(** Marking the same cell twice in a sentence is the same as marking it
    once: the second call finds the cell gone and does nothing; in
    particular the count is lowered once only. *)
Theorem sentence_marks_idempotent c s :
  Sentence.mark_mine c (Sentence.mark_mine c s) = Sentence.mark_mine c s
  ∧ Sentence.mark_safe c (Sentence.mark_safe c s) = Sentence.mark_safe c s
  ∧ c ∉ Sentence.cells (Sentence.mark_mine c s)
  ∧ c ∉ Sentence.cells (Sentence.mark_safe c s).
Proof.
  split; [apply Sentence_mark_mine_idemp|].
  split; [apply Sentence_mark_safe_idemp|].
  unfold Sentence.mark_mine, Sentence.mark_safe.
  split; case_decide; simpl; set_solver.
Qed.

(** What a sentence concludes is right whenever the sentence is: if
    exactly [count] of its cells are mines, every cell of [known_mines] is
    a mine and no cell of [known_safes] is. *)
Theorem sentence_conclusions_sound G s :
  true_of G s →
  Sentence.known_mines s ⊆ G ∧ Sentence.known_safes s ## G.
Proof.
  unfold true_of. intros Hn. split.
  - intros c (Hc & Hsz & _)%elem_of_known_mines.
    assert (Heq : Sentence.cells s ∩ G = Sentence.cells s).
    { apply set_subseteq_size_eq; [apply intersection_subseteq_l|lia]. }
    clear -Hc Heq. set_solver.
  - intros c (Hc & H0)%elem_of_known_safes HG.
    assert (Hsz : size (Sentence.cells s ∩ G) = 0) by lia.
    apply size_empty_inv in Hsz. clear -Hc HG Hsz. set_solver.
Qed.

Lemma sentence_conclusions_sound_witness :
  Sentence.known_mines (Sentence.Build {[(0, 1); (1, 1)]}%Z 2)
    ⊆ {[(0, 1); (1, 1); (2, 2)]}%Z
  ∧ Sentence.known_safes (Sentence.Build {[(0, 1); (1, 1)]}%Z 2)
    ## {[(0, 1); (1, 1); (2, 2)]}%Z.
Proof.
  apply sentence_conclusions_sound.
  vm_compute. reflexivity.
Defined.

(** Marking keeps a true sentence true when the cell is marked for what
    it is: [mark_mine] for a mine, [mark_safe] for a cell that is no mine. *)
Theorem sentence_marks_keep_truth G s c :
  true_of G s →
  (c ∈ G → true_of G (Sentence.mark_mine c s))
  ∧ (c ∉ G → true_of G (Sentence.mark_safe c s)).
Proof.
  unfold true_of. intros Hn. split; intros Hc.
  - unfold Sentence.mark_mine. case_decide as Hin; [|done]. simpl. rewrite Hn.
    replace ((Sentence.cells s ∖ {[c]}) ∩ G)
      with ((Sentence.cells s ∩ G) ∖ {[c]}) by (clear -Hc; set_solver).
    assert (Hsub : {[c]} ⊆ Sentence.cells s ∩ G) by (clear -Hc Hin; set_solver).
    rewrite (size_difference (Sentence.cells s ∩ G) {[c]}) by done.
    apply subseteq_size in Hsub. rewrite size_singleton in *. lia.
  - unfold Sentence.mark_safe. case_decide as Hin; [|done]. simpl. rewrite Hn.
    do 2 f_equal. clear -Hc. set_solver.
Qed.

Lemma sentence_marks_keep_truth_witness :
  true_of {[(0, 1)%Z]}
    (Sentence.mark_mine (0, 1)%Z (Sentence.Build {[(0, 1); (1, 1)]}%Z 1)).
Proof.
  refine (proj1 (sentence_marks_keep_truth {[(0, 1)%Z]}
                   (Sentence.Build {[(0, 1); (1, 1)]}%Z 1) (0, 1)%Z _) _).
  - vm_compute. reflexivity.
  - apply (bool_decide_unpack _). vm_compute. exact I.
Defined.

(** Subset resolution is sound: from two sentences that are true of the
    same mines, the first over a subset of the cells of the second, the
    derived sentence is true as well, and its count lies between 0 and the
    number of its cells. *)
Theorem inferred_sound G s1 s2 :
  true_of G s1 → true_of G s2 →
  Sentence.cells s1 ⊆ Sentence.cells s2 →
  true_of G (inferred s1 s2)
  ∧ (0 ≤ Sentence.count (inferred s1 s2)
       ≤ Z.of_nat (size (Sentence.cells (inferred s1 s2))))%Z.
Proof.
  unfold true_of. intros H1 H2 Hsub.
  assert (Ht : Sentence.count (inferred s1 s2)
               = Z.of_nat (size (Sentence.cells (inferred s1 s2) ∩ G))).
  { unfold inferred. simpl. rewrite H1, H2.
    replace ((Sentence.cells s2 ∖ Sentence.cells s1) ∩ G)
      with ((Sentence.cells s2 ∩ G) ∖ (Sentence.cells s1 ∩ G))
      by (clear; set_solver).
    assert (Hs : Sentence.cells s1 ∩ G ⊆ Sentence.cells s2 ∩ G)
      by (clear -Hsub; set_solver).
    rewrite (size_difference (Sentence.cells s2 ∩ G)
               (Sentence.cells s1 ∩ G)) by done.
    apply subseteq_size in Hs. lia. }
  split; [done|]. rewrite Ht.
  pose proof (subseteq_size (Sentence.cells (inferred s1 s2) ∩ G)
                (Sentence.cells (inferred s1 s2))
                (intersection_subseteq_l _ _)).
  lia.
Qed.

Lemma inferred_sound_witness :
  true_of {[(1, 1)%Z]}
    (inferred (Sentence.Build {[(1, 1); (1, 2)]}%Z 1)
              (Sentence.Build {[(1, 0); (1, 1); (1, 2)]}%Z 1)).
Proof.
  refine (proj1 (inferred_sound {[(1, 1)%Z]}
                   (Sentence.Build {[(1, 1); (1, 2)]}%Z 1)
                   (Sentence.Build {[(1, 0); (1, 1); (1, 2)]}%Z 1) _ _ _)).
  - vm_compute. reflexivity.
  - vm_compute. reflexivity.
  - apply (bool_decide_unpack _). vm_compute. exact I.
Defined.

(** ** Marking cells in the knowledge base *)

(** Declaring the same cell a mine (or safe) twice in a row gives the
    state that declaring it once gives. *)
Theorem marks_idempotent st c :
  mark_mine (mark_mine st c) c = mark_mine st c
  ∧ mark_safe (mark_safe st c) c = mark_safe st c.
Proof.
  unfold mark_mine, mark_safe. simpl. split; f_equal; try set_solver.
  - rewrite <- list_fmap_compose. apply list_fmap_ext.
    intros _ s _. apply Sentence_mark_mine_idemp.
  - rewrite <- list_fmap_compose. apply list_fmap_ext.
    intros _ s _. apply Sentence_mark_safe_idemp.
Qed.

(** The loops [for mine in mines: self.mark_mine(mine)] and
    [for safe in safes: self.mark_safe(safe)] give the same state in
    whatever order the set is walked. *)
Theorem marking_order_irrelevant st l1 l2 :
  l1 ≡ₚ l2 →
  foldl mark_mine st l1 = foldl mark_mine st l2
  ∧ foldl mark_safe st l1 = foldl mark_safe st l2.
Proof.
  intros Hl. split; apply foldl_comm_perm; auto using mark_mine_comm, mark_safe_comm.
Qed.

Lemma marking_order_irrelevant_witness :
  foldl mark_mine (observe (init 2 2) (0, 0)%Z 1) [(0, 1); (1, 1)]%Z
  = foldl mark_mine (observe (init 2 2) (0, 0)%Z 1) [(1, 1); (0, 1)]%Z.
Proof.
  refine (proj1 (marking_order_irrelevant _ [(0, 1); (1, 1)]%Z
                   [(1, 1); (0, 1)]%Z _)).
  apply perm_swap.
Defined.

Lemma fold_mark_mine_sentence l s :
  NoDup l →
  foldl (λ s c, Sentence.mark_mine c s) s l =
  Sentence.Build (Sentence.cells s ∖ list_to_set l)
    (Sentence.count s - Z.of_nat (size (Sentence.cells s ∩ list_to_set l))).
Proof.
  intros Hl. revert s. induction Hl as [|c l Hc _ IH]; intros s; simpl.
  - destruct s as [X n]. simpl. f_equal; [set_solver|].
    replace (X ∩ ∅) with (∅ : gset cell) by set_solver.
    rewrite size_empty. lia.
  - rewrite IH. unfold Sentence.mark_mine.
    destruct (decide (c ∈ Sentence.cells s)) as [Hin|Hin]; simpl.
    + f_equal; [set_solver|].
      replace (Sentence.cells s ∩ ({[c]} ∪ list_to_set l))
        with ({[c]} ∪ (Sentence.cells s ∖ {[c]}) ∩ list_to_set l).
      2:{ apply set_eq. intros x.
          rewrite !elem_of_union, !elem_of_intersection, elem_of_difference,
            elem_of_union, !elem_of_singleton, elem_of_list_to_set.
          destruct (decide (x = c)) as [->|]; [|tauto].
          split; [auto|]. intros _. left. done. }
      rewrite (size_union {[c]}
                 ((Sentence.cells s ∖ {[c]}) ∩ list_to_set l)), size_singleton;
        [lia|].
      intros x ->%elem_of_singleton [[_ Hx]%elem_of_difference _]%elem_of_intersection.
      by apply Hx, elem_of_singleton.
    + f_equal; [set_solver|]. do 3 f_equal. apply set_eq. intros x.
      rewrite !elem_of_intersection, elem_of_union, elem_of_singleton.
      split; [tauto|]. intros [Hx [->|?]]; tauto.
Qed.

Lemma fold_mark_mine_knowledge l st :
  knowledge (foldl mark_mine st l) =
  (λ s, foldl (λ s c, Sentence.mark_mine c s) s l) <$> knowledge st.
Proof.
  revert st. induction l as [|c l IH]; intros st; simpl.
  - by rewrite list_fmap_id.
  - rewrite IH. simpl. by rewrite <- list_fmap_compose.
Qed.

(** Marking a whole set of cells as mines adds the set to [self.mines]
    and, in each stored sentence, removes the cells of the set and lowers
    the count by the number of cells removed. *)
Theorem mark_mines_closed_form st M :
  mines (mark_mines st M) = mines st ∪ M
  ∧ safes (mark_mines st M) = safes st
  ∧ knowledge (mark_mines st M) =
      (λ s, Sentence.Build (Sentence.cells s ∖ M)
              (Sentence.count s - Z.of_nat (size (Sentence.cells s ∩ M))))
      <$> knowledge st.
Proof.
  unfold mark_mines.
  destruct (fold_mark_mine_fields (elements M) st) as (_ & _ & _ & -> & ->).
  rewrite list_to_set_elements_L. split; [done|]. split; [done|].
  rewrite fold_mark_mine_knowledge. apply list_fmap_ext. intros _ s _.
  rewrite fold_mark_mine_sentence by apply NoDup_elements.
  by rewrite list_to_set_elements_L.
Qed.

(** ** [add_knowledge] *)

Lemma loop_mines_mono fuel st st' :
  fixpoint_loop fuel st = Some st' → mines st ⊆ mines st'.
Proof.
  revert st. induction fuel as [|fuel IH]; intros st; [done|].
  rewrite fixpoint_loop_S.
  pose proof (pass_fields st) as (_ & _ & _ & Hm & _ & _).
  assert (Hsub : mines st ⊆ mines (pass st).1) by (rewrite Hm; set_solver).
  destruct (pass st).2.
  - intros H%IH. set_solver.
  - by intros [= <-].
Qed.

(** A call [add_knowledge(cell, count)] that returns has recorded the
    move and marked the cell safe, has forgotten no known mine and no
    known safe cell, and has left the dimensions alone. *)
Theorem add_knowledge_grows fuel st c n st' :
  add_knowledge fuel st c n = Some st' →
  moves_made st' = moves_made st ∪ {[c]}
  ∧ c ∈ safes st'
  ∧ mines st ⊆ mines st'
  ∧ safes st ⊆ safes st'
  ∧ height st' = height st ∧ width st' = width st.
Proof.
  intros Hadd.
  pose proof (add_knowledge_dims _ _ _ _ _ Hadd) as (Hh & Hw & Hmv).
  unfold add_knowledge in Hadd.
  pose proof (loop_mines_mono _ _ _ Hadd) as Hm.
  pose proof (loop_safes_mono _ _ _ Hadd) as Hs.
  assert (Hso : safes (observe st c n) = safes st ∪ {[c]}) by reflexivity.
  assert (Hmo : mines (observe st c n) = mines st) by reflexivity.
  rewrite Hso in Hs. rewrite Hmo in Hm. clear -Hh Hw Hmv Hm Hs.
  repeat split; try done; set_solver.
Qed.

Lemma add_knowledge_grows_witness :
  ∃ st', add_knowledge 1 (init 2 2) (0, 0)%Z 1 = Some st'
         ∧ moves_made st' = moves_made (init 2 2) ∪ {[(0, 0)%Z]}.
Proof.
  eexists. split; [vm_compute; reflexivity|].
  refine (proj1 (add_knowledge_grows 1 (init 2 2) (0, 0)%Z 1 _ _)).
  vm_compute. reflexivity.
Defined.

Lemma loop_last_pass fuel st st' :
  fixpoint_loop fuel st = Some st' →
  ∃ st0, (pass st0).2 = false ∧ st' = (pass st0).1.
Proof.
  revert st. induction fuel as [|fuel IH]; intros st; [done|].
  rewrite fixpoint_loop_S. destruct (pass st).2 eqn:Hp; [apply IH|].
  intros [= <-]. eauto.
Qed.

(** When [add_knowledge] returns, the knowledge is saturated: no stored
    sentence with cells left has count 0 or count equal to the number of
    its cells (nothing is left to mark), and for every two stored sentences
    that pass the guard of subset resolution the derived sentence is stored
    too.  (Empty sentences may remain, so the list itself can still change
    under a further purge.) *)
Theorem add_knowledge_saturated fuel st c n st' :
  add_knowledge fuel st c n = Some st' →
  (∀ s, s ∈ knowledge st' → Sentence.cells s ≠ ∅ →
        Sentence.count s ≠ 0%Z
        ∧ Sentence.count s ≠ Z.of_nat (size (Sentence.cells s)))
  ∧ (∀ s1 s2, s1 ∈ knowledge st' → s2 ∈ knowledge st' →
              resolvable s1 s2 → inferred s1 s2 ∈ knowledge st').
Proof.
  unfold add_knowledge. intros (st0 & Hp & ->)%loop_last_pass.
  rewrite pass_new_info in Hp.
  apply orb_false_iff in Hp as [Hp Hr]. apply orb_false_iff in Hp as [HM HS].
  apply negb_false_iff, bool_decide_eq_true in HM, HS, Hr.
  pose proof (pass_fields st0) as (_ & _ & _ & _ & _ & HK).
  assert (Hbr : before_resolve st0 = set_knowledge st0 (purge (knowledge st0))).
  { unfold before_resolve. by rewrite !decide_True by done. }
  rewrite Hr, app_nil_r in HK. rewrite HK.
  rewrite Hbr, knowledge_set_knowledge in Hr |- *.
  split.
  - intros s Hs%elem_of_purge Hne. split.
    + intros H0. apply Hne. apply set_eq. intros x.
      split; [|by intros ?%not_elem_of_empty].
      intros Hx. rewrite <- HS. apply elem_of_collect_safes.
      exists s. split; [done|]. by apply elem_of_known_safes.
    + intros Hsz. apply Hne. apply set_eq. intros x.
      split; [|by intros ?%not_elem_of_empty].
      intros Hx. rewrite <- HM. apply elem_of_collect_mines.
      exists s. split; [done|]. apply elem_of_known_mines.
      split; [done|]. split; [done|]. intros H0. rewrite H0 in Hsz.
      assert (Hz : size (Sentence.cells s) = 0) by lia.
      apply size_empty_inv in Hz. apply Hne. by apply leibniz_equiv.
  - intros s1 s2 H1 H2 Hres.
    destruct (decide (inferred s1 s2 ∈ purge (knowledge st0))) as [|Hn]; [done|].
    assert (Hin : inferred s1 s2 ∈ resolve (purge (knowledge st0))).
    { apply elem_of_resolve. eauto 10. }
    rewrite Hr in Hin. by apply elem_of_nil in Hin.
Qed.

Lemma add_knowledge_saturated_witness :
  ∃ st', add_knowledge 1 (init 2 2) (0, 0)%Z 1 = Some st'
         ∧ ∀ s, s ∈ knowledge st' → Sentence.cells s ≠ ∅ →
                Sentence.count s ≠ 0%Z
                ∧ Sentence.count s ≠ Z.of_nat (size (Sentence.cells s)).
Proof.
  eexists. split; [vm_compute; reflexivity|].
  refine (proj1 (add_knowledge_saturated 1 (init 2 2) (0, 0)%Z 1 _ _)).
  vm_compute. reflexivity.
Defined.

(** While the AI plays on a board, what it knows is right: every cell of
    [self.mines] is a mine of the board, no cell of [self.safes] is, and
    every stored sentence counts exactly the mines among its cells. *)
Theorem play_is_sound g st :
  played g st →
  mines st ⊆ mine_set g
  ∧ safes st ## mine_set g
  ∧ Forall (true_of (mine_set g)) (knowledge st).
Proof.
  intros (_ & _ & Hm & Hs & HK)%played_inv. split; [|split].
  - intros c. apply Hm.
  - intros c Hc. by apply Hs.
  - eapply Forall_impl; [exact HK|]. by intros s (_ & _ & ?).
Qed.

Lemma play_is_sound_witness :
  mines (mark_mine (init 2 3) (1, 1)%Z) ⊆ mine_set board_2x3.
Proof.
  refine (proj1 (play_is_sound board_2x3 (mark_mine (init 2 3) (1, 1)%Z) _)).
  apply (played_mark_mine board_2x3 (init 2 3) (1, 1)%Z (played_init board_2x3)).
  apply (bool_decide_unpack _). vm_compute. exact I.
Defined.

(** The sentence [add_knowledge] builds for an observation never mentions
    the observed cell itself, although the loops visit it: its cells are
    exactly the neighbours on the board that are neither known safe nor
    known mines. *)
Theorem observed_sentence_cells st c n x :
  x ∈ Sentence.cells (new_sentence (mark_safe (record_move st c) c) c n) ↔
  x ∈ neighbors c ∧ in_bounds (height st) (width st) x
  ∧ x ∉ safes st ∧ x ∉ mines st.
Proof.
  rewrite new_sentence_cells. unfold neighbors. simpl.
  rewrite elem_of_difference, elem_of_list_to_set, elem_of_union,
    elem_of_singleton.
  tauto.
Qed.

(** ** Choosing a move *)

Lemma first_unmade_Some made l c :
  first_unmade made l = Some c → c ∈ l ∧ c ∉ made.
Proof.
  induction l as [|x l IH]; simpl; [done|].
  case_decide as Hx.
  - intros [= <-]. split; [apply elem_of_cons; by left|done].
  - intros [? ?]%IH. split; [apply elem_of_cons; by right|done].
Qed.

Lemma first_unmade_None made l :
  first_unmade made l = None ↔ ∀ c, c ∈ l → c ∈ made.
Proof.
  induction l as [|x l IH]; simpl.
  - split; [|done]. intros _ c Hc. by apply elem_of_nil in Hc.
  - case_decide as Hx.
    + split; [done|]. intros Hall. exfalso. apply Hx, Hall, elem_of_cons. by left.
    + rewrite IH. split.
      * intros Hall c [->|Hc]%elem_of_cons; [|by apply Hall].
        destruct (decide (x ∈ made)) as [|Hn]; [done|]. contradiction.
      * intros Hall c Hc. apply Hall, elem_of_cons. by right.
Qed.

(** [make_safe_move], in whatever order the set [self.safes] is walked:
    a returned cell is known safe and has not been played, and [None] is
    returned exactly when every known safe cell has been played. *)
Theorem make_safe_move_spec st l :
  l ≡ₚ elements (safes st) →
  (∀ c, first_unmade (moves_made st) l = Some c →
        c ∈ safes st ∧ c ∉ moves_made st)
  ∧ (first_unmade (moves_made st) l = None ↔ safes st ⊆ moves_made st).
Proof.
  intros Hl. split.
  - intros c [Hc Hn]%first_unmade_Some. split; [|done].
    rewrite Hl in Hc. by apply elem_of_elements.
  - rewrite first_unmade_None. split.
    + intros Hall c Hc. apply Hall. rewrite Hl. by apply elem_of_elements.
    + intros Hsub c Hc. apply Hsub. rewrite Hl in Hc. by apply elem_of_elements.
Qed.

Lemma make_safe_move_spec_witness :
  first_unmade (moves_made (mark_safe (init 2 2) (0, 1)%Z)) [(0, 1)%Z] = None
  ↔ safes (mark_safe (init 2 2) (0, 1)%Z)
    ⊆ moves_made (mark_safe (init 2 2) (0, 1)%Z).
Proof.
  refine (proj2 (make_safe_move_spec (mark_safe (init 2 2) (0, 1)%Z)
                   [(0, 1)%Z] _)).
  vm_compute. reflexivity.
Defined.

(** While the AI plays on a board, [make_safe_move] never proposes a
    mine of the board, nor a cell that was already played, in whatever
    order the set [self.safes] is walked. *)
Theorem make_safe_move_avoids_mines g st walk c :
  played g st → walk ≡ₚ elements (safes st) →
  make_safe_move walk st = Some c →
  c ∉ mine_set g ∧ c ∉ moves_made st.
Proof.
  intros (_ & _ & _ & Hs & _)%played_inv Hw [Hc Hn]%first_unmade_Some.
  split; [|done]. apply Hs. rewrite Hw in Hc. by apply elem_of_elements.
Qed.

Lemma make_safe_move_avoids_mines_witness :
  (1, 0)%Z ∉ mine_set board_2x3
  ∧ (1, 0)%Z ∉ moves_made
                 (mark_safe (mark_safe (init 2 3) (0, 1)%Z) (1, 0)%Z).
Proof.
  apply (make_safe_move_avoids_mines board_2x3
           (mark_safe (mark_safe (init 2 3) (0, 1)%Z) (1, 0)%Z)
           [(1, 0); (0, 1)]%Z (1, 0)%Z).
  - apply (played_mark_safe board_2x3 _ (1, 0)%Z).
    + apply (played_mark_safe board_2x3 (init 2 3) (0, 1)%Z
               (played_init board_2x3)).
      apply (bool_decide_unpack _). vm_compute. exact I.
    + apply (bool_decide_unpack _). vm_compute. exact I.
  - apply (bool_decide_unpack _). vm_compute. exact I.
  - vm_compute. reflexivity.
Defined.

Lemma elem_of_available st c :
  c ∈ available st ↔
  in_bounds (height st) (width st) c ∧ c ∉ moves_made st ∧ c ∉ mines st.
Proof.
  unfold available, in_bounds. destruct c as [i j]. simpl.
  rewrite list_elem_of_bind. split.
  - intros (i' & Hj & Hi). apply list_elem_of_bind in Hj as (j' & Hc & Hj).
    case_decide as Hg; [|by apply elem_of_nil in Hc].
    apply list_elem_of_singleton in Hc. injection Hc as -> ->.
    apply elem_of_range in Hi, Hj. split; [lia|done].
  - intros ([Hi Hj] & Hmv & Hm). exists i. split; [|apply elem_of_range; lia].
    apply list_elem_of_bind. exists j. split; [|apply elem_of_range; lia].
    rewrite decide_True by done. by apply list_elem_of_singleton.
Qed.

Lemma elem_of_guarded (P : Prop) `{!Decision P} (c x : cell) :
  x ∈ (if decide P then [c] else []) → x = c.
Proof.
  case_decide; [by intros ?%list_elem_of_singleton|by intros ?%elem_of_nil].
Qed.

Lemma NoDup_available st : NoDup (available st).
Proof.
  unfold available. apply NoDup_bind.
  - intros i1 i2 [i j] _ _ H1 H2.
    apply list_elem_of_bind in H1 as (j1 & H1 & _).
    apply list_elem_of_bind in H2 as (j2 & H2 & _).
    apply elem_of_guarded in H1, H2. congruence.
  - intros i _. apply NoDup_bind.
    + intros j1 j2 [i' j] _ _ H1 H2.
      apply elem_of_guarded in H1, H2. congruence.
    + intros j _. case_decide; [apply NoDup_singleton|apply NoDup_nil_2].
    + apply NoDup_range.
  - apply NoDup_range.
Qed.

(** [make_random_move] returns [None] exactly when every cell of the
    board has been played or is a known mine; a cell it returns is on the
    board, has not been played and is not a known mine; every such cell
    is returned for some output of the generator; and the list the choice
    is made from holds each candidate once. *)
Theorem make_random_move_spec st :
  NoDup (available st)
  ∧ (∀ r, make_random_move r st = None ↔
        ∀ c, in_bounds (height st) (width st) c →
             c ∈ moves_made st ∨ c ∈ mines st)
  ∧ (∀ r c, make_random_move r st = Some c →
            in_bounds (height st) (width st) c
            ∧ c ∉ moves_made st ∧ c ∉ mines st)
  ∧ (∀ c, in_bounds (height st) (width st) c →
          c ∉ moves_made st → c ∉ mines st →
          ∃ r, make_random_move r st = Some c).
Proof.
  split; [apply NoDup_available|].
  unfold make_random_move. split; [|split].
  - intros r. destruct (decide (length (available st) ≠ 0)) as [Hne|He].
    + split.
      * intros Hnone. apply lookup_ge_None in Hnone.
        pose proof (Nat.mod_upper_bound r _ Hne). lia.
      * intros Hall. exfalso.
        destruct (available st) as [|c l] eqn:Hav; [done|].
        assert (Hc : c ∈ available st) by (rewrite Hav; apply elem_of_cons; by left).
        apply elem_of_available in Hc as (Hb & Hmv & Hm).
        destruct (Hall c Hb); done.
    + split; [|done]. intros _ c Hb.
      destruct (decide (c ∈ moves_made st)) as [|Hmv]; [by left|].
      destruct (decide (c ∈ mines st)) as [|Hm]; [by right|].
      exfalso. apply He.
      assert (Hc : c ∈ available st) by (by apply elem_of_available).
      destruct (available st); [by apply elem_of_nil in Hc|done].
  - intros r c. case_decide; [|done].
    intros Hc%list_elem_of_lookup_2. by apply elem_of_available.
  - intros c Hb Hmv Hm.
    assert (Hc : c ∈ available st) by (by apply elem_of_available).
    apply list_elem_of_lookup in Hc as (k & Hk).
    pose proof (lookup_lt_Some _ _ _ Hk) as Hlt.
    exists k. rewrite decide_True by lia. by rewrite Nat.mod_small.
Qed.

Lemma make_random_move_spec_witness :
  ∃ r, make_random_move r (mark_mine (init 2 2) (0, 0)%Z) = Some (1, 1)%Z.
Proof.
  refine (proj2 (proj2 (proj2 (make_random_move_spec
                                 (mark_mine (init 2 2) (0, 0)%Z))))
            (1, 1)%Z _ _ _).
  - apply (bool_decide_unpack _). vm_compute. exact I.
  - apply (bool_decide_unpack _). vm_compute. exact I.
  - apply (bool_decide_unpack _). vm_compute. exact I.
Defined.

(** ** The board *)

Lemma block_center c : c ∈ block c.
Proof.
  destruct c as [r c]. rewrite block_unfold.
  do 4 (apply elem_of_cons; right). apply elem_of_cons. by left.
Qed.

Lemma length_block c : length (block c) = 9.
Proof. destruct c as [r c]. by rewrite block_unfold. Qed.

(** [nearby_mines] returns the number of mines of the board among the
    eight cells around the given cell, whether or not that cell is on the
    board or a mine itself; the result lies between 0 and 8. *)
Theorem nearby_mines_counts g c :
  Minesweeper.nearby_mines g c = Z.of_nat (size (neighbors c ∩ mine_set g))
  ∧ (0 ≤ Minesweeper.nearby_mines g c ≤ 8)%Z.
Proof.
  rewrite nearby_mines_spec. split.
  - f_equal.
    rewrite <- (size_list_to_set (C := gset cell))
      by apply NoDup_filter, NoDup_block.
    f_equal. apply set_eq. intros x. unfold neighbors.
    rewrite elem_of_list_to_set, list_elem_of_filter, elem_of_intersection,
      elem_of_difference, elem_of_list_to_set, elem_of_singleton.
    tauto.
  - pose proof (length_filter_lt (λ x, x ≠ c ∧ x ∈ mine_set g) (block c) c
                  (block_center c)) as Hlt.
    rewrite length_block in Hlt.
    assert (Hn : ¬ (c ≠ c ∧ c ∈ mine_set g)) by tauto.
    specialize (Hlt Hn). lia.
Qed.

Lemma py_index_nonneg {A} (l : list A) i :
  (0 ≤ i < Z.of_nat (length l))%Z → py_index l i = l !! Z.to_nat i.
Proof. intros Hi. unfold py_index. by rewrite decide_True. Qed.

Lemma py_index_neg {A} (l : list A) i :
  (- Z.of_nat (length l) ≤ i < 0)%Z →
  py_index l i = l !! Z.to_nat (Z.of_nat (length l) + i).
Proof.
  intros Hi. unfold py_index. rewrite decide_False by lia.
  by rewrite decide_True.
Qed.

Lemma well_formed_row g i row :
  well_formed g → Minesweeper.board g !! i = Some row →
  length row = Z.to_nat (Minesweeper.width g).
Proof. intros [_ Hrows] Hrow. by apply (Forall_lookup_1 _ _ _ _ Hrows Hrow). Qed.

(** On a board of the shape [__init__] builds, [is_mine] answers for
    every cell of the board, and says yes exactly for the cells that
    [nearby_mines] counts as mines. *)
Theorem is_mine_spec g c :
  well_formed g →
  in_bounds (Minesweeper.height g) (Minesweeper.width g) c →
  is_mine g c = Some (Minesweeper.board_at g c.1 c.2)
  ∧ (is_mine g c = Some true ↔ c ∈ mine_set g).
Proof.
  intros Hwf [Hi Hj].
  assert (Heq : is_mine g c = Some (Minesweeper.board_at g c.1 c.2)).
  { unfold is_mine, Minesweeper.board_at.
    pose proof Hwf as [Hlen _].
    rewrite py_index_nonneg by lia.
    destruct (lookup_lt_is_Some_2 (Minesweeper.board g) (Z.to_nat c.1))
      as [row Hrow]; [lia|].
    rewrite Hrow. simpl.
    pose proof (well_formed_row g _ row Hwf Hrow) as Hw.
    rewrite py_index_nonneg by lia.
    destruct (lookup_lt_is_Some_2 row (Z.to_nat c.2)) as [b Hb]; [lia|].
    by rewrite Hb. }
  split; [done|]. rewrite Heq, elem_of_mine_set. unfold in_bounds.
  split; [intros [= ->]; done|]. by intros (_ & ->).
Qed.

Lemma is_mine_spec_witness :
  is_mine board_2x3 (1, 1)%Z = Some true ↔ (1, 1)%Z ∈ mine_set board_2x3.
Proof.
  refine (proj2 (is_mine_spec board_2x3 (1, 1)%Z _ _)).
  - apply (bool_decide_unpack _). vm_compute. exact I.
  - apply (bool_decide_unpack _). vm_compute. exact I.
Defined.

(** [is_mine] does no bounds check of its own.  On a well-formed board a
    row index outside [-height, height) makes it fail ([IndexError]),
    while a negative index within that range silently reads from the far
    side of the board: [(i - height, j - width)] gives the answer for
    [(i, j)]. *)
Theorem is_mine_off_board g i j :
  well_formed g →
  ((i < - Minesweeper.height g ∨ Minesweeper.height g ≤ i)%Z →
   is_mine g (i, j) = None)
  ∧ (in_bounds (Minesweeper.height g) (Minesweeper.width g) (i, j) →
     is_mine g ((i - Minesweeper.height g)%Z, (j - Minesweeper.width g)%Z)
     = is_mine g (i, j)).
Proof.
  intros Hwf. pose proof Hwf as [Hlen _]. split.
  - intros Hout. unfold is_mine, py_index. simpl.
    rewrite decide_False by lia. rewrite decide_False by lia. done.
  - intros [Hi Hj]. simpl in Hi, Hj. unfold is_mine. simpl.
    rewrite (py_index_nonneg (Minesweeper.board g) i) by lia.
    rewrite (py_index_neg (Minesweeper.board g)) by lia.
    replace (Z.to_nat (Z.of_nat (length (Minesweeper.board g))
                       + (i - Minesweeper.height g)))
      with (Z.to_nat i) by lia.
    destruct (Minesweeper.board g !! Z.to_nat i) as [row|] eqn:Hrow; [|done].
    simpl. pose proof (well_formed_row g _ row Hwf Hrow) as Hw.
    rewrite (py_index_nonneg row j) by lia.
    rewrite (py_index_neg row) by lia.
    f_equal. lia.
Qed.

Lemma is_mine_off_board_witness :
  is_mine board_2x3 ((1 - 2)%Z, (1 - 3)%Z) = is_mine board_2x3 (1, 1)%Z.
Proof.
  refine (proj2 (is_mine_off_board board_2x3 1 1 _) _).
  - apply (bool_decide_unpack _). vm_compute. exact I.
  - apply (bool_decide_unpack _). vm_compute. exact I.
Defined.

(** ** Setting up a game *)

Lemma length_range lo hi : length (range lo hi) = Z.to_nat (hi - lo).
Proof. unfold range. apply length_seqZ. Qed.

Lemma empty_board_well_formed h w :
  well_formed (Minesweeper.Build h w (empty_board h w)).
Proof.
  unfold well_formed, empty_board. simpl. split.
  - rewrite length_fmap, length_range. f_equal. lia.
  - apply Forall_fmap, Forall_forall. intros x _. simpl.
    rewrite length_fmap, length_range. f_equal. lia.
Qed.

Lemma board_at_empty h w i j :
  Minesweeper.board_at (Minesweeper.Build h w (empty_board h w)) i j = false.
Proof.
  unfold Minesweeper.board_at, empty_board. simpl.
  rewrite list_lookup_fmap. destruct (range 0 h !! Z.to_nat i); simpl; [|done].
  rewrite list_lookup_fmap. by destruct (range 0 w !! Z.to_nat j).
Qed.

Lemma mine_set_empty_board h w :
  mine_set (Minesweeper.Build h w (empty_board h w)) = ∅.
Proof.
  apply set_eq. intros c. rewrite elem_of_mine_set, board_at_empty.
  split; [by intros [_ ?]|by intros ?%not_elem_of_empty].
Qed.

Lemma set_mine_well_formed h w b i j :
  well_formed (Minesweeper.Build h w b) →
  well_formed (Minesweeper.Build h w (set_mine b i j)).
Proof.
  unfold well_formed, set_mine. simpl. intros [Hlen Hrows]. split.
  - by rewrite length_alter.
  - apply Forall_alter; [done|]. intros row _ Hrow. by rewrite length_insert.
Qed.

Lemma board_at_set_mine h w b i j i' j' :
  well_formed (Minesweeper.Build h w b) →
  in_bounds h w (i, j) → (0 ≤ i')%Z → (0 ≤ j')%Z →
  Minesweeper.board_at (Minesweeper.Build h w (set_mine b i j)) i' j' =
  if decide ((i', j') = (i, j)) then true
  else Minesweeper.board_at (Minesweeper.Build h w b) i' j'.
Proof.
  unfold well_formed, in_bounds, Minesweeper.board_at, set_mine. simpl.
  intros [Hlen Hrows] [Hi Hj] Hi' Hj'.
  destruct (decide (i' = i)) as [->|Hne].
  - rewrite list_lookup_alter_eq.
    destruct (lookup_lt_is_Some_2 b (Z.to_nat i)) as [row Hrow]; [lia|].
    rewrite Hrow. simpl.
    pose proof (Forall_lookup_1 _ _ _ _ Hrows Hrow) as Hw. simpl in Hw.
    destruct (decide (j' = j)) as [->|Hnj].
    + rewrite decide_True by done.
      rewrite list_lookup_insert_eq by lia. done.
    + rewrite decide_False by congruence.
      rewrite list_lookup_insert_ne by lia. done.
  - rewrite decide_False by congruence.
    rewrite list_lookup_alter_ne by lia. done.
Qed.

Lemma mine_set_set_mine h w b ij :
  well_formed (Minesweeper.Build h w b) → in_bounds h w ij →
  mine_set (Minesweeper.Build h w (set_mine b ij.1 ij.2))
  = mine_set (Minesweeper.Build h w b) ∪ {[ij]}.
Proof.
  intros Hwf Hij. apply set_eq. intros c.
  rewrite elem_of_union, elem_of_singleton, !elem_of_mine_set. simpl.
  split.
  - intros [Hc Hb]. destruct Hc as [Hc1 Hc2].
    rewrite (board_at_set_mine h w b ij.1 ij.2) in Hb;
      [|done|by destruct ij|lia..].
    case_decide as Heq.
    + right. destruct c, ij. simpl in *. congruence.
    + left. by split.
  - intros [[Hc Hb]| ->].
    + split; [done|]. destruct Hc as [Hc1 Hc2].
      rewrite (board_at_set_mine h w b ij.1 ij.2);
        [|done|by destruct ij|lia..].
      by case_decide.
    + split; [done|]. destruct Hij as [H1 H2].
      rewrite (board_at_set_mine h w b ij.1 ij.2);
        [|done|by destruct ij|lia..].
      by rewrite decide_True.
Qed.

Lemma place_mines_inv h w target draws placed b placed' b' :
  Forall (in_bounds h w) draws →
  well_formed (Minesweeper.Build h w b) →
  placed = mine_set (Minesweeper.Build h w b) →
  place_mines h w target draws placed b = Returned (placed', b') →
  well_formed (Minesweeper.Build h w b')
  ∧ placed' = mine_set (Minesweeper.Build h w b')
  ∧ Z.of_nat (size placed') = target.
Proof.
  revert placed b. induction draws as [|ij draws IH];
    intros placed b Hd Hwf Hp; simpl.
  - case_decide as Ht; [by intros [= <- <-]|]. by case_decide.
  - case_decide as Ht; [by intros [= <- <-]|]. case_decide; [done|].
    apply Forall_cons in Hd as [Hij Hd].
    destruct (Minesweeper.board_at _ ij.1 ij.2) eqn:Hb.
    + by apply IH.
    + apply IH; [done|by apply set_mine_well_formed|].
      rewrite mine_set_set_mine by done. by rewrite Hp.
Qed.

Lemma place_mines_not_raised h w target draws placed b :
  (0 < h)%Z → (0 < w)%Z →
  place_mines h w target draws placed b ≠ Raised.
Proof.
  intros Hh Hw. revert placed b.
  induction draws as [|ij draws IH]; intros placed b; simpl.
  - case_decide; [done|]. by rewrite decide_False by lia.
  - case_decide; [done|]. rewrite decide_False by lia.
    destruct (Minesweeper.board_at _ ij.1 ij.2); apply IH.
Qed.

Lemma place_mines_raised h w target draws placed b :
  (h ≤ 0 ∨ w ≤ 0)%Z → Z.of_nat (size placed) ≠ target →
  place_mines h w target draws placed b = Raised.
Proof.
  intros Hhw Ht. destruct draws; simpl;
    rewrite decide_False by done; by rewrite decide_True.
Qed.

Lemma place_mines_done h w target draws placed b :
  Z.of_nat (size placed) = target →
  place_mines h w target draws placed b = Returned (placed, b).
Proof. intros Ht. destruct draws; simpl; by rewrite decide_True. Qed.

Lemma new_game_inv h w target draws g placed :
  Forall (in_bounds h w) draws →
  new_game h w target draws = Returned (g, placed) →
  g = Minesweeper.Build h w (Minesweeper.board g)
  ∧ well_formed g
  ∧ placed = mine_set g
  ∧ Z.of_nat (size placed) = target.
Proof.
  intros Hd. unfold new_game.
  destruct (place_mines h w target draws ∅ (empty_board h w))
    as [[placed' b']| |] eqn:Hpl; [|done..].
  intros [= <- <-]. split; [done|].
  apply (place_mines_inv _ _ _ _ _ _ _ _ Hd (empty_board_well_formed h w)
           (eq_sym (mine_set_empty_board h w)) Hpl).
Qed.

(** When [Minesweeper.__init__] returns, the board has [height] rows of
    [width] entries, [self.mines] is exactly the set of cells whose board
    entry is [True] (the mines that [nearby_mines] and [is_mine] see), all
    of them on the board, and their number is the number asked for. *)
Theorem new_game_spec h w target draws g placed :
  Forall (in_bounds h w) draws →
  new_game h w target draws = Returned (g, placed) →
  Minesweeper.height g = h ∧ Minesweeper.width g = w
  ∧ well_formed g
  ∧ placed = mine_set g
  ∧ placed ⊆ board_cells h w
  ∧ Z.of_nat (size placed) = target.
Proof.
  intros Hd Hg.
  destruct (new_game_inv _ _ _ _ _ _ Hd Hg) as (Hg' & Hwf & Hm & Hn).
  rewrite Hg' at 1 2. simpl. repeat split; try done; try apply Hwf.
  rewrite Hm, Hg'. apply mine_set_board.
Qed.

Lemma new_game_spec_witness :
  ∃ g placed,
    new_game 2 3 1 [(1, 1)%Z] = Returned (g, placed) ∧ placed = mine_set g.
Proof.
  do 2 eexists. split; [vm_compute; reflexivity|].
  refine (let H := new_game_spec 2 3 1 [(1, 1)%Z] _ _ _ _ in
          proj1 (proj2 (proj2 (proj2 H)))).
  - apply (bool_decide_unpack _). vm_compute. exact I.
  - vm_compute. reflexivity.
Defined.

(** On a board that has cells, [Minesweeper.__init__] cannot finish when
    asked for a negative number of mines, or for more mines than the board
    has cells: whatever the generator returns, the placement loop neither
    returns nor raises, it keeps asking for more draws. *)
Theorem new_game_never_returns h w target draws :
  (0 < h)%Z → (0 < w)%Z →
  Forall (in_bounds h w) draws →
  (target < 0 ∨ Z.of_nat (size (board_cells h w)) < target)%Z →
  new_game h w target draws = Starved.
Proof.
  intros Hh Hw Hd Ht.
  destruct (new_game h w target draws) as [[g placed]| |] eqn:Hg; [| |done].
  - apply new_game_inv in Hg as (Hg & _ & Hm & Hn); [|done].
    assert (Hsub : placed ⊆ board_cells h w).
    { rewrite Hm, Hg. apply mine_set_board. }
    apply subseteq_size in Hsub. lia.
  - exfalso. unfold new_game in Hg.
    pose proof (place_mines_not_raised h w target draws ∅
                  (empty_board h w) Hh Hw) as Hnr.
    destruct (place_mines h w target draws ∅ (empty_board h w))
      as [[placed' b']| |]; done.
Qed.

Lemma new_game_never_returns_witness :
  new_game 2 3 (-1) [(1, 1); (0, 0)]%Z = Starved.
Proof.
  apply new_game_never_returns.
  - vm_compute. reflexivity.
  - vm_compute. reflexivity.
  - apply (bool_decide_unpack _). vm_compute. exact I.
  - left. vm_compute. reflexivity.
Defined.

(** On a board without cells ([height <= 0] or [width <= 0])
    [Minesweeper.__init__] returns the empty game when no mine is asked
    for, and otherwise ends at once with the [ValueError] of
    [random.randrange], whatever the generator would return. *)
Theorem new_game_without_cells h w target draws :
  (h ≤ 0 ∨ w ≤ 0)%Z →
  new_game h w target draws =
  if decide (target = 0%Z)
  then Returned (Minesweeper.Build h w (empty_board h w), ∅)
  else Raised.
Proof.
  intros Hhw. unfold new_game. case_decide as Ht.
  - rewrite place_mines_done; [done|]. rewrite size_empty. lia.
  - rewrite place_mines_raised; [done|done|]. rewrite size_empty. lia.
Qed.

Lemma new_game_without_cells_witness :
  new_game 0 3 1 [] = Raised.
Proof.
  refine (eq_trans (new_game_without_cells 0 3 1 [] _) _).
  - left. vm_compute. discriminate.
  - reflexivity.
Defined.

(** ** Purging empty sentences *)

Lemma remove_sublist x l : remove x l `sublist_of` l.
Proof.
  induction l as [|y l IH]; simpl; [done|].
  case_decide; [by apply sublist_cons|by apply sublist_skip].
Qed.

Lemma purge_from_sublist n i l : purge_from n i l `sublist_of` l.
Proof.
  revert i l. induction n as [|n IH]; intros i l; simpl; [done|].
  destruct (l !! i) as [s|]; [|done].
  case_decide; [|apply IH]. etrans; [apply IH|apply remove_sublist].
Qed.

Lemma remove_filter_nonempty x l :
  Sentence.cells x = ∅ →
  filter (λ s, Sentence.cells s ≠ ∅) (remove x l)
  = filter (λ s, Sentence.cells s ≠ ∅) l.
Proof.
  intros Hx. induction l as [|y l IH]; simpl; [done|].
  case_decide as Hy.
  - subst y. rewrite filter_cons_False; [done|]. by intros ?.
  - rewrite !filter_cons, IH. done.
Qed.

Lemma purge_from_filter_nonempty n i l :
  filter (λ s, Sentence.cells s ≠ ∅) (purge_from n i l)
  = filter (λ s, Sentence.cells s ≠ ∅) l.
Proof.
  revert i l. induction n as [|n IH]; intros i l; simpl; [done|].
  destruct (l !! i) as [s|]; [|done].
  case_decide as Hs; [|apply IH].
  rewrite IH. apply remove_filter_nonempty.
  apply size_empty_inv in Hs. by apply leibniz_equiv.
Qed.

Lemma length_remove_elem x l : x ∈ l → S (length (remove x l)) = length l.
Proof.
  induction l as [|y l IH]; simpl; [by intros ?%elem_of_nil|].
  case_decide as Hy; [done|].
  intros [->|Hx]%elem_of_cons; [done|]. simpl. by rewrite IH.
Qed.

Lemma purge_from_shrinks n i l k s :
  length l ≤ n + i → i ≤ k → l !! k = Some s → Sentence.cells s = ∅ →
  length (purge_from n i l) < length l.
Proof.
  revert i l. induction n as [|n IH]; intros i l Hlen Hik Hk Hs.
  - apply lookup_lt_Some in Hk. lia.
  - simpl. pose proof (lookup_lt_Some _ _ _ Hk) as Hlt.
    destruct (lookup_lt_is_Some_2 l i) as [s0 Hs0]; [lia|].
    rewrite Hs0. case_decide as Hsz.
    + pose proof (sublist_length _ _ (purge_from_sublist n (S i) (remove s0 l))).
      pose proof (length_remove_elem s0 l (list_elem_of_lookup_2 _ _ _ Hs0)).
      lia.
    + apply IH; [lia| |done..].
      destruct (decide (i = k)) as [->|]; [|lia].
      rewrite Hk in Hs0. injection Hs0 as ->.
      rewrite Hs, size_empty in Hsz. done.
Qed.

Lemma purge_from_id n i l :
  Forall (λ s, Sentence.cells s ≠ ∅) l → purge_from n i l = l.
Proof.
  intros Hall. revert i. induction n as [|n IH]; intros i; simpl; [done|].
  destruct (l !! i) as [s|] eqn:Hs; [|done].
  rewrite decide_False; [apply IH|].
  intros Hsz%size_empty_inv%leibniz_equiv.
  by apply (Forall_lookup_1 _ _ _ _ Hall Hs).
Qed.

(** The loop that removes empty sentences keeps every sentence that has
    cells, in the stored order, and removes nothing else than sentences
    without cells; it leaves a list without empty sentences unchanged, and
    whenever the list holds an empty sentence it removes at least one. *)
Theorem purge_spec l :
  purge l `sublist_of` l
  ∧ filter (λ s, Sentence.cells s ≠ ∅) (purge l)
    = filter (λ s, Sentence.cells s ≠ ∅) l
  ∧ (Forall (λ s, Sentence.cells s ≠ ∅) l → purge l = l)
  ∧ (Exists (λ s, Sentence.cells s = ∅) l → length (purge l) < length l).
Proof.
  split; [apply purge_from_sublist|].
  split; [apply purge_from_filter_nonempty|]. split.
  - intros Hall. by apply purge_from_id.
  - intros (s & Hs & He)%Exists_exists.
    apply list_elem_of_lookup in Hs as (k & Hk).
    apply (purge_from_shrinks _ 0 l k s); [lia|lia|done|done].
Qed.

Lemma purge_spec_witness :
  length (purge [Sentence.Build ∅ 0; Sentence.Build ∅ 0; Sentence.Build ∅ 0])
  < length [Sentence.Build ∅ 0; Sentence.Build ∅ 0; Sentence.Build ∅ 0].
Proof.
  refine (proj2 (proj2 (proj2 (purge_spec _))) _).
  apply (bool_decide_unpack _). vm_compute. exact I.
Defined.
